(** * spriterecolour: the [recolour] package (generate.go)

    A shallow embedding of [recolour/generate.go] and the properties of
    its colour catalogue, index encoding and palette layout.

    Conventions of the embedding:
    - Go's fixed-width integers are [Z] with the wrap-around written out
      ([int] is the 64-bit two's-complement integer of amd64/arm64);
    - [float64] is IEEE-754 binary64 as specified by [SpecFloat]
      (53-bit mantissa, round to nearest even), so every float operation
      of the source is evaluated bit for bit;
    - [*UniqueColour] pointers are addresses into a heap; the colour map
      and the colour list hold addresses, so the aliasing between the map
      and the sorted list is the one the source has;
    - slices are lists; an index out of range is a run-time panic, [None];
    - what lies outside the repository (the colour library's [Hsv], the
      iteration order of a Go map, the file system and the PNG encoder)
      is a field of the record [World]. *)

From Stdlib Require Import ZArith List Lia Bool String.
From Stdlib Require Import Floats.SpecFloat.
From stdpp Require Import base option list gmap sorting functions.

Open Scope Z_scope.

(** ** Machine integers *)

Module GoInt.

(** [int]: 64 bits, two's complement; [wrap] reduces into
    [-2^63, 2^63). *)
Definition wrap (z : Z) : Z :=
  (z + 9223372036854775808) mod 18446744073709551616 - 9223372036854775808.

Definition uint8 (z : Z) : Z := z mod 256.
Definition uint16 (z : Z) : Z := z mod 65536.

End GoInt.

(** ** float64 *)

Module F64.

Definition float64 := spec_float.

Definition prec : Z := 53.
Definition emax : Z := 1024.

(** [float64(z)] for an integer [z]: rounded to nearest even. *)
Definition of_Z (z : Z) : float64 := binary_normalize prec emax z 0 false.

Definition add : float64 -> float64 -> float64 := SFadd prec emax.
Definition sub : float64 -> float64 -> float64 := SFsub prec emax.
Definition mul : float64 -> float64 -> float64 := SFmul prec emax.
Definition div : float64 -> float64 -> float64 := SFdiv prec emax.
Definition ltb : float64 -> float64 -> bool := SFltb.
Definition leb : float64 -> float64 -> bool := SFleb.
Definition eqb : float64 -> float64 -> bool := SFeqb.
Definition abs : float64 -> float64 := SFabs.

Definition is_finite (f : float64) : bool :=
  match f with
  | S754_zero _ | S754_finite _ _ _ => true
  | _ => false
  end.

Definition is_nan (f : float64) : bool :=
  match f with S754_nan => true | _ => false end.

(** The integer part of a float, fraction discarded (towards zero).
    Infinities and NaN have none; the conversions below give them 0. *)
Definition trunc (f : float64) : Z :=
  match f with
  | S754_finite s m e =>
      let a := match e with
               | Zneg p => Z.shiftr (Zpos m) (Zpos p)
               | _ => Z.shiftl (Zpos m) e
               end in
      if s then - a else a
  | _ => 0
  end.

(** [uint8(f)] and [int(f)].  Go leaves the result open when the value
    does not fit; the embedding wraps.  Every conversion in the package
    is applied to a value that fits whenever the colour samples respect
    the [color.Color] contract (components within [0, 0xffff]). *)
Definition to_uint8 (f : float64) : Z := GoInt.uint8 (trunc f).
Definition to_int (f : float64) : Z := GoInt.wrap (trunc f).

(** [math.Ceil]. *)
Definition ceil (f : float64) : float64 :=
  match f with
  | S754_finite s m (Zneg p) =>
      let q := Z.shiftr (Zpos m) (Zpos p) in
      let exact := Z.eqb (Z.shiftl q (Zpos p)) (Zpos m) in
      if s then
        (if Z.eqb q 0 then S754_zero true else of_Z (- q))
      else of_Z (if exact then q else q + 1)
  | _ => f
  end.

End F64.

Import F64.

(** ** The package's constants and float comparison (generate.go:18-25) *)

(** [var EPSILON float64 = 0.00000001]: the binary64 number nearest
    to 1e-8, that is 0x1.5798ee2308c3ap-27. *)
Definition EPSILON : float64 := S754_finite false 6044629098073146 (-79).

(** The float literals [65535.0], [255.0] and [256.0] of the source. *)
Definition f65535 : float64 := S754_finite false 9007061815787520 (-37).
Definition f255 : float64 := S754_finite false 8972014882652160 (-45).
Definition f256 : float64 := S754_finite false 4503599627370496 (-44).

Definition floatEquals (a b : float64) : bool :=
  if F64.ltb (F64.sub a b) EPSILON && F64.ltb (F64.sub b a) EPSILON
  then true
  else false.

(** ** Palette layout (generate.go:191-211) *)

Definition nextPowerOfTwo (v : Z) : Z :=
  let v := GoInt.wrap (v - 1) in
  let v := Z.lor v (Z.shiftr v 1) in
  let v := Z.lor v (Z.shiftr v 2) in
  let v := Z.lor v (Z.shiftr v 4) in
  let v := Z.lor v (Z.shiftr v 8) in
  let v := Z.lor v (Z.shiftr v 16) in
  let v := GoInt.wrap (v + 1) in
  v.

Definition getPaletteImageDimensions (numColours : Z) : Z * Z :=
  let width := 256 in
  let height := 1 in
  if 256 <? numColours then
    (width,
     nextPowerOfTwo
       (F64.to_int (F64.ceil (F64.div (F64.of_Z numColours) f256))))
  else if numColours <=? 128 then
    (nextPowerOfTwo numColours, height)
  else (width, height).

(** ** Go's image/color: the colour types the package touches

    [color.Color] is an interface with one method, [RGBA()], returning
    the alpha-premultiplied components in [0, 0xffff].  The three dynamic
    types below are those of decoded PNG, GIF and JPEG pixels that matter
    here; their [RGBA()] is the standard library's. *)

Module color.

Record RGBA := mkRGBA { R : Z; G : Z; B : Z; A : Z }.

Record NRGBA := mkNRGBA { nR : Z; nG : Z; nB : Z; nA : Z }.

Inductive Color :=
| OfRGBA (c : RGBA)               (* 8 bits, alpha-premultiplied *)
| OfNRGBA (c : NRGBA)             (* 8 bits, not premultiplied   *)
| OfRGBA64 (r g b a : Z).         (* 16 bits, alpha-premultiplied *)

(** [c.RGBA()] *)
Definition Color_RGBA (c : Color) : Z * Z * Z * Z :=
  match c with
  | OfRGBA c =>
      (Z.lor (R c) (Z.shiftl (R c) 8), Z.lor (G c) (Z.shiftl (G c) 8),
       Z.lor (B c) (Z.shiftl (B c) 8), Z.lor (A c) (Z.shiftl (A c) 8))
  | OfNRGBA c =>
      let pre v := Z.lor v (Z.shiftl v 8) * nA c / 255 in
      (pre (nR c), pre (nG c), pre (nB c),
       Z.lor (nA c) (Z.shiftl (nA c) 8))
  | OfRGBA64 r g b a => (r, g, b, a)
  end.

(** [color.NRGBAModel.Convert], used by the Set method of image.NRGBA. *)
Definition nrgbaModel (c : Color) : NRGBA :=
  match c with
  | OfNRGBA n => n
  | _ =>
      let '(r, g, b, a) := Color_RGBA c in
      if a =? 65535 then
        mkNRGBA (GoInt.uint8 (Z.shiftr r 8)) (GoInt.uint8 (Z.shiftr g 8))
                (GoInt.uint8 (Z.shiftr b 8)) 255
      else if a =? 0 then mkNRGBA 0 0 0 0
      else
        let un v := GoInt.uint8 (Z.shiftr (v * 65535 / a) 8) in
        mkNRGBA (un r) (un g) (un b) (GoInt.uint8 (Z.shiftr a 8))
  end.

(** A sample honours the interface's contract when its components
    lie in [0, 0xffff]. *)
Definition in_range (c : Color) : Prop :=
  let '(r, g, b, a) := Color_RGBA c in
  0 <= r <= 65535 /\ 0 <= g <= 65535 /\ 0 <= b <= 65535 /\ 0 <= a <= 65535.

End color.

Global Instance RGBA_eq_dec : EqDecision color.RGBA.
Proof. solve_decision. Defined.

Global Instance RGBA_countable : Countable color.RGBA :=
  inj_countable'
    (fun c => (color.R c, color.G c, color.B c, color.A c))
    (fun t => let '(r, g, b, a) := t in color.mkRGBA r g b a)
    (fun c => match c with color.mkRGBA _ _ _ _ => eq_refl end).

Global Instance NRGBA_eq_dec : EqDecision color.NRGBA.
Proof. solve_decision. Defined.

(** ** Colour normalisation (generate.go:57-76) *)

(** One channel of [colourTo8BitRGBA]:
    [uint8((float64(v) / 65535.0) * 255.0)]. *)
Definition scaleChannel (v : Z) : Z :=
  F64.to_uint8 (F64.mul (F64.div (F64.of_Z v) f65535) f255).

Definition colourTo8BitRGBA (c : color.Color) : color.RGBA :=
  let '(r, g, b, a) := color.Color_RGBA c in
  color.mkRGBA (scaleChannel r) (scaleChannel g) (scaleChannel b)
               (scaleChannel a).

Definition colourTo8BitPaletteRGBA (c : color.Color) : color.RGBA :=
  let cout := colourTo8BitRGBA c in
  (* Palette entries must be solid *)
  color.mkRGBA (color.R cout) (color.G cout) (color.B cout) 255.

(** ** Unique colours, the heap and the sortable list (generate.go:27-55) *)

Module UniqueColour.

Record t := mk {
  RGBA : color.RGBA;
  H : float64;
  S : float64;
  V : float64;
  (* Store an index so that references in map know final position in list *)
  Index : Z                           (* uint16 *)
}.

Definition withIndex (c : t) (i : Z) : t :=
  mk (RGBA c) (H c) (S c) (V c) i.

(** Go's zero value. *)
Definition zero : t :=
  mk (color.mkRGBA 0 0 0 0) (S754_zero false) (S754_zero false)
     (S754_zero false) 0.

End UniqueColour.

Global Instance UniqueColour_inhabited : Inhabited UniqueColour.t :=
  populate UniqueColour.zero.

(** Addresses of [UniqueColour] objects, and the heap they live in.
    Every address the program holds comes from an allocation, so a
    dereference never fails; [!!!] reads an address. *)
Abbreviation ptr := nat (only parsing).
Abbreviation Heap := (gmap ptr UniqueColour.t) (only parsing).

(** [type UniqueColourList []*UniqueColour] *)
Abbreviation UniqueColourList := (list ptr) (only parsing).

Definition Len (l : UniqueColourList) : nat := length l.

(** The body of [Less] once both elements are fetched. *)
Definition lessColour (a b : UniqueColour.t) : bool :=
  if floatEquals (UniqueColour.H a) (UniqueColour.H b) then
    if floatEquals (UniqueColour.S a) (UniqueColour.S b) then
      F64.ltb (UniqueColour.V a) (UniqueColour.V b)
    else F64.ltb (UniqueColour.S a) (UniqueColour.S b)
  else F64.ltb (UniqueColour.H a) (UniqueColour.H b).

Definition Less (h : Heap) (l : UniqueColourList) (i j : nat) : option bool :=
  a ← l !! i;
  b ← l !! j;
  Some (lessColour (h !!! a) (h !!! b)).

(** [Swap]: the two [Index] fields are exchanged through the pointers,
    then the two pointers are exchanged in the slice.  Both right-hand
    sides are read before either assignment, as Go's tuple assignment
    prescribes. *)
Definition Swap (h : Heap) (l : UniqueColourList) (i j : nat)
  : option (Heap * UniqueColourList) :=
  pi ← l !! i;
  pj ← l !! j;
  let idx_j := UniqueColour.Index (h !!! pj) in
  let idx_i := UniqueColour.Index (h !!! pi) in
  let h := <[pi := UniqueColour.withIndex (h !!! pi) idx_j]> h in
  let h := <[pj := UniqueColour.withIndex (h !!! pj) idx_i]> h in
  Some (h, <[j := pi]> (<[i := pj]> l)).

(** ** Go's sort.Sort

    Package sort reaches the data through [Len], [Less] and [Swap] only.
    The embedding runs the package's [insertionSort] on the whole slice:

      for i := a + 1; i < b; i++ {
        for j := i; j > a && data.Less(j, j-1); j-- { data.Swap(j, j-1) }
      }

    which is what [sort.Sort] itself executes on slices of at most twelve
    elements; on longer ones the library mixes it with other
    comparison-and-swap passes, which end in the same arrangement
    whenever [Less] is a strict total order on the elements. *)
Module sort.

Fixpoint insertLoop (h : Heap) (l : UniqueColourList) (j : nat)
  : option (Heap * UniqueColourList) :=
  match j with
  | O => Some (h, l)
  | S j' =>
      lt ← Less h l j j';
      if (lt : bool) then
        st ← Swap h l j j';
        insertLoop st.1 st.2 j'
      else Some (h, l)
  end.

Definition insertionSort (h : Heap) (l : UniqueColourList) (a b : nat)
  : option (Heap * UniqueColourList) :=
  foldl (fun st i => st ← st; insertLoop st.1 st.2 i)
        (Some (h, l)) (seq (a + 1) (b - (a + 1))).

Definition Sort (h : Heap) (l : UniqueColourList)
  : option (Heap * UniqueColourList) :=
  insertionSort h l 0 (Len l).

(** [sort.IsSorted]: no element is less than its predecessor. *)
Definition IsSorted (h : Heap) (l : UniqueColourList) : Prop :=
  forall i a b, l !! i = Some a -> l !! (S i) = Some b ->
                lessColour (h !!! b) (h !!! a) = false.

End sort.

(** ** Go's image: rectangles and the two pixel buffers written *)

Module image.

Record Rectangle := mkRect { MinX : Z; MinY : Z; MaxX : Z; MaxY : Z }.

(** [image.Rect]: the corners are put in order. *)
Definition Rect (x0 y0 x1 y1 : Z) : Rectangle :=
  let '(x0, x1) := if x1 <? x0 then (x1, x0) else (x0, x1) in
  let '(y0, y1) := if y1 <? y0 then (y1, y0) else (y0, y1) in
  mkRect x0 y0 x1 y1.

(** [Point{x, y}.In(r)] *)
Definition In (x y : Z) (r : Rectangle) : bool :=
  (MinX r <=? x) && (x <? MaxX r) && (MinY r <=? y) && (y <? MaxY r).

(** [image.Image] as the package reads it. *)
Record Image := mkImage { Bounds : Rectangle; At : Z -> Z -> color.Color }.

(** [*image.NRGBA]: a rectangle of pixels, all zero when created. *)
Record NRGBA := mkNRGBA { NRect : Rectangle; NPix : gmap (Z * Z) color.NRGBA }.

Definition NewNRGBA (r : Rectangle) : NRGBA := mkNRGBA r ∅.

Definition NRGBAAt (p : NRGBA) (x y : Z) : color.NRGBA :=
  default (color.mkNRGBA 0 0 0 0) (NPix p !! (x, y)).

Definition Set_ (p : NRGBA) (x y : Z) (c : color.Color) : NRGBA :=
  if In x y (NRect p)
  then mkNRGBA (NRect p) (<[(x, y) := color.nrgbaModel c]> (NPix p))
  else p.

(** [*image.RGBA] *)
Record RGBA := mkRGBA { RRect : Rectangle; RPix : gmap (Z * Z) color.RGBA }.

Definition NewRGBA (r : Rectangle) : RGBA := mkRGBA r ∅.

Definition RGBAAt (p : RGBA) (x y : Z) : color.RGBA :=
  default (color.mkRGBA 0 0 0 0) (RPix p !! (x, y)).

Definition SetRGBA (p : RGBA) (x y : Z) (c : color.RGBA) : RGBA :=
  if In x y (RRect p)
  then mkRGBA (RRect p) (<[(x, y) := c]> (RPix p))
  else p.

End image.

(** ** Go's image/png: the size check of the encoder

    [png.Encode] (image/png/writer.go) starts with

      mw, mh := int64(m.Bounds().Dx()), int64(m.Bounds().Dy())
      if mw <= 0 || mh <= 0 || mw >= 1<<32 || mh >= 1<<32 {
        return FormatError("invalid image size: ...")
      }

    so an image with an empty side is never encoded. *)
Module png.

Definition invalidSize (r : image.Rectangle) : bool :=
  let mw := GoInt.wrap (image.MaxX r - image.MinX r) in
  let mh := GoInt.wrap (image.MaxY r - image.MinY r) in
  (mw <=? 0) || (mh <=? 0) || (2 ^ 32 <=? mw) || (2 ^ 32 <=? mh).

End png.

(** ** What the package does not own *)

Inductive error :=
| ErrTooManyColours               (* "Sorry, sprite contains too many colours" *)
| ErrOpen (path : string)         (* os.OpenFile failed *)
| ErrEncode (path : string).      (* png.Encode failed  *)

(** What reaches the file system. *)
Inductive event :=
| EvCreate (path : string)                        (* created or truncated *)
| EvSprite (path : string) (img : image.NRGBA)    (* index image encoded  *)
| EvPalette (path : string) (img : image.RGBA).   (* palette encoded      *)

Record World := mkWorld {
  (** [colorful.Color{r, g, b}.Hsv()] of github.com/lucasb-eyer/go-colorful *)
  Hsv : float64 -> float64 -> float64 -> float64 * float64 * float64;
  (** the order in which [range] visits the entries of the colour map *)
  mapRange : list (color.RGBA * ptr) -> list (color.RGBA * ptr);
  (** whether [os.OpenFile] and [png.Encode] fail on a path *)
  openFails : string -> bool;
  encodeFails : string -> bool
}.

(** A Go map is visited entry by entry, each once, in no fixed order. *)
Definition range_visits_all (w : World) : Prop :=
  forall l, mapRange w l ≡ₚ l.

(** The encoder of [w] makes [png.Encode]'s size check when it is given
    an image of rectangle [r] to write at [path]. *)
Definition encoderChecksSize (w : World) (path : string)
    (r : image.Rectangle) : Prop :=
  png.invalidSize r = true -> encodeFails w path = true.

(** ** GenerateFromImage (generate.go:96-189) *)

(** The pixels in the order of the two nested loops: rows, then columns. *)
Definition span (lo hi : Z) : list Z :=
  map (fun k => lo + Z.of_nat k) (seq 0 (Z.to_nat (hi - lo))).

Definition coords (b : image.Rectangle) : list (Z * Z) :=
  y ← span (image.MinY b) (image.MaxY b);
  x ← span (image.MinX b) (image.MaxX b);
  [(x, y)].

(** The state of the first loop: the colour map, the heap its entries
    point into and the next free address. *)
Record Catalogue := mkCatalogue {
  colourMap : gmap color.RGBA ptr;
  heap : Heap;
  next : ptr
}.

Definition emptyCatalogue : Catalogue := mkCatalogue ∅ ∅ 0%nat.

(** Body of the first loop (generate.go:104-113). *)
Definition recordColour (w : World) (cat : Catalogue) (c : color.Color)
  : Catalogue :=
  let p := colourTo8BitPaletteRGBA c in
  match colourMap cat !! p with
  | Some _ => cat
  | None =>
      let '(h, s, v) :=
        Hsv w (F64.div (F64.of_Z (color.R p)) f255)
              (F64.div (F64.of_Z (color.G p)) f255)
              (F64.div (F64.of_Z (color.B p)) f255) in
      let col := next cat in
      mkCatalogue (<[p := col]> (colourMap cat))
                  (<[col := UniqueColour.mk p h s v 0]> (heap cat))
                  (S col)
  end.

Definition scanImage (w : World) (img : image.Image) : Catalogue :=
  foldl (fun cat xy => recordColour w cat (image.At img xy.1 xy.2))
        emptyCatalogue (coords (image.Bounds img)).

(** The provisional numbering (generate.go:122-128): one pass over the
    map, in the order [range] happens to take. *)
Definition numberColours (h : Heap) (visited : list ptr)
  : Heap * UniqueColourList * Z :=
  foldl (fun st c =>
           let '(h, colourList, nextIndex) := st in
           (<[c := UniqueColour.withIndex (h !!! c) nextIndex]> h,
            colourList ++ [c],
            GoInt.uint16 (nextIndex + 1)))
        (h, [], 0) visited.

(** The catalogue once sorted: what the rest of the function reads. *)
Definition sortedCatalogue (w : World) (cat : Catalogue)
  : option (Heap * UniqueColourList) :=
  let visited := (mapRange w (map_to_list (colourMap cat))).*2 in
  let '(h, colourList, _) := numberColours (heap cat) visited in
  sort.Sort h colourList.

(** Body of the second loop (generate.go:136-146). *)
Definition indexPixel (col : UniqueColour.t) (inpix : color.RGBA)
  : color.RGBA :=
  (* Red channel = colour index U *)
  let red := GoInt.uint8 (Z.land (UniqueColour.Index col) 65535) in
  (* Blue channel = colour index V *)
  let blue := GoInt.uint8 (Z.shiftr (UniqueColour.Index col) 16) in
  (* Green channel = unused for now *)
  color.mkRGBA red blue 0 (color.A inpix).

Definition encodePixel (img : image.Image) (m : gmap color.RGBA ptr)
    (h : Heap) (outSprite : image.NRGBA) (xy : Z * Z) : image.NRGBA :=
  let inpix := colourTo8BitPaletteRGBA (image.At img xy.1 xy.2) in
  (* Should never fail but just don't write pixel if it does *)
  match m !! inpix with
  | Some col =>
      image.Set_ outSprite xy.1 xy.2 (color.OfRGBA (indexPixel (h !!! col) inpix))
  | None => outSprite
  end.

Definition encodeImage (img : image.Image) (m : gmap color.RGBA ptr)
    (h : Heap) : image.NRGBA :=
  let b := image.Bounds img in
  foldl (encodePixel img m h)
        (image.NewNRGBA (image.Rect (image.MinX b) (image.MinY b)
                                    (image.MaxX b) (image.MaxY b)))
        (coords b).

(** The palette loop (generate.go:164-174); its state is the palette
    image, the slice being returned and the cursor [x], [y]. *)
Definition layPalette (h : Heap) (colourList : UniqueColourList)
    (width height : Z) : image.RGBA * list color.RGBA :=
  let '(outPalette, palette, _, _) :=
    foldl (fun st c =>
             let '(outPalette, palette, x, y) := st in
             let rgba := UniqueColour.RGBA (h !!! c) in
             let outPalette := image.SetRGBA outPalette x y rgba in
             let palette := palette ++ [rgba] in
             let x := x + 1 in
             if x =? width then (outPalette, palette, 0, y + 1)
             else (outPalette, palette, x, y))
          (image.NewRGBA (image.Rect 0 0 width height), [], 0, 0)
          colourList in
  (outPalette, palette).

(** [GenerateFromImage]: [None] is a run-time panic; otherwise the pair
    returned ([nil] with an error, or the palette) and what was written. *)
Definition GenerateFromImage (w : World) (img : image.Image)
    (outImagePath outPaletteTexture : string)
  : option ((error + list color.RGBA) * list event) :=
  (* Record of what colours are present *)
  let cat := scanImage w img in
  if 65536 <? Z.of_nat (size (colourMap cat)) then
    Some (inl ErrTooManyColours, [])
  else
    (* Re-order the colours by HSV so easier to edit *)
    st ← sortedCatalogue w cat;
    let '(h, colourList) := st in
    (* Now generate the sprite output *)
    let outSprite := encodeImage img (colourMap cat) h in
    if openFails w outImagePath then Some (inl (ErrOpen outImagePath), [])
    else if encodeFails w outImagePath then
      Some (inl (ErrEncode outImagePath), [EvCreate outImagePath])
    else
      let written := [EvCreate outImagePath; EvSprite outImagePath outSprite] in
      (* Now write palette texture & build return *)
      if (0 <? String.length outPaletteTexture)%nat then
        let '(width, height) :=
          getPaletteImageDimensions (Z.of_nat (Len colourList)) in
        let '(outPalette, palette) := layPalette h colourList width height in
        if openFails w outPaletteTexture then
          Some (inl (ErrOpen outPaletteTexture), written)
        else if encodeFails w outPaletteTexture then
          Some (inl (ErrEncode outPaletteTexture),
                written ++ [EvCreate outPaletteTexture])
        else
          Some (inr palette,
                written ++ [EvCreate outPaletteTexture;
                            EvPalette outPaletteTexture outPalette])
      else Some (inr [], written).

(** ** Generate (generate.go:78-94) *)

(** The input side, which the package does not own: whether
    [os.OpenFile] fails to open a path for reading, and what
    [image.Decode] makes of the content of the file at a path. *)
Record Input := mkInput {
  openInputFails : string -> bool;
  decode : string -> option image.Image
}.

Inductive generateError :=
| ErrDecode (path : string)       (* image.Decode failed *)
| ErrOf (e : error).              (* os.OpenFile failed, or GenerateFromImage *)

Inductive generateEvent :=
| EvOpen (path : string)          (* opened read-only *)
| EvClose (path : string)         (* the deferred f.Close() *)
| EvOut (e : event).              (* a file operation of GenerateFromImage *)

(** [Generate]: [None] is a run-time panic of [GenerateFromImage]. *)
Definition Generate (w : World) (fs : Input)
    (imagePath outImagePath outPaletteTexture : string)
  : option ((generateError + list color.RGBA) * list generateEvent) :=
  if openInputFails fs imagePath then
    Some (inl (ErrOf (ErrOpen imagePath)), [])
  else
    (* defer f.Close() *)
    match decode fs imagePath with
    | None =>
        Some (inl (ErrDecode imagePath), [EvOpen imagePath; EvClose imagePath])
    | Some img =>
        out ← GenerateFromImage w img outImagePath outPaletteTexture;
        Some (match out.1 with
              | inl e => inl (ErrOf e)
              | inr palette => inr palette
              end,
              [EvOpen imagePath] ++ (EvOut <$> out.2) ++ [EvClose imagePath])
    end.

(** ** A concrete world, to run the function

    [Hsv] transcribes go-colorful's method (with the [math.Min],
    [math.Max] and [math.Mod] it calls); the map is visited in the order
    of stdpp's [map_to_list]; no file operation fails. *)

Module colorful.

Definition Min (x y : float64) : float64 :=
  match x, y with
  | S754_nan, _ | _, S754_nan => S754_nan
  | S754_zero sx, S754_zero sy => S754_zero (sx || sy)
  | _, _ => if F64.ltb y x then y else x
  end.

Definition Max (x y : float64) : float64 :=
  match x, y with
  | S754_nan, _ | _, S754_nan => S754_nan
  | S754_zero sx, S754_zero sy => S754_zero (sx && sy)
  | _, _ => if F64.ltb x y then y else x
  end.

(** [math.Mod]: the remainder has the sign of [x] and is exact. *)
Definition Mod (x y : float64) : float64 :=
  match x, y with
  | S754_nan, _ | _, S754_nan | S754_infinity _, _ | _, S754_zero _ =>
      S754_nan
  | _, S754_infinity _ | S754_zero _, _ => x
  | S754_finite sx mx ex, S754_finite _ my ey =>
      let e := Z.min ex ey in
      let r := Z.rem (Z.shiftl (Zpos mx) (ex - e)) (Z.shiftl (Zpos my) (ey - e)) in
      binary_normalize F64.prec F64.emax (if sx then - r else r) e sx
  end.

Definition Hsv (r g b : float64) : float64 * float64 * float64 :=
  let min := Min (Min r g) b in
  let v := Max (Max r g) b in
  let C := F64.sub v min in
  let s := if negb (F64.eqb v (S754_zero false)) then F64.div C v
           else S754_zero false in
  let h :=
    if negb (F64.eqb min v) then
      let h := S754_zero false in
      let h := if F64.eqb v r
               then Mod (F64.div (F64.sub g b) C) (F64.of_Z 6) else h in
      let h := if F64.eqb v g
               then F64.add (F64.div (F64.sub b r) C) (F64.of_Z 2) else h in
      let h := if F64.eqb v b
               then F64.add (F64.div (F64.sub r g) C) (F64.of_Z 4) else h in
      let h := F64.mul h (F64.of_Z 60) in
      if F64.ltb h (S754_zero false) then F64.add h (F64.of_Z 360) else h
    else S754_zero false in
  (h, s, v).

End colorful.

Definition quietWorld : World :=
  mkWorld colorful.Hsv (fun l => l) (fun _ => false) (fun _ => false).

(** * Properties *)

(** ** Integers: wrap-around and exhaustive checks over a range *)

Lemma float_literals :
  f65535 = F64.of_Z 65535 /\ f255 = F64.of_Z 255 /\ f256 = F64.of_Z 256 /\
  EPSILON = F64.div (F64.of_Z 1) (F64.of_Z 100000000).
Proof. repeat split; reflexivity. Qed.

Lemma wrap_small (z : Z) : - 2 ^ 63 <= z < 2 ^ 63 -> GoInt.wrap z = z.
Proof.
  intros Hz. unfold GoInt.wrap. rewrite Z.mod_small; lia.
Qed.

(** [all_range f k lo]: [f] holds on the [2 ^ k] integers from [lo] on. *)
Fixpoint all_range (f : Z -> bool) (k : nat) (lo : Z) : bool :=
  match k with
  | O => f lo
  | S k' => all_range f k' lo && all_range f k' (lo + 2 ^ Z.of_nat k')
  end.

Lemma all_range_spec (f : Z -> bool) (k : nat) :
  forall lo, all_range f k lo = true ->
  forall z, lo <= z < lo + 2 ^ Z.of_nat k -> f z = true.
Proof.
  induction k as [|k IH]; intros lo Hall z Hz.
  - simpl in *. replace z with lo by lia. exact Hall.
  - cbn [all_range] in Hall. apply andb_true_iff in Hall as [Hlo Hhi].
    rewrite Nat2Z.inj_succ, Z.pow_succ_r in Hz by lia.
    destruct (Z.lt_ge_cases z (lo + 2 ^ Z.of_nat k)).
    + apply (IH lo Hlo). lia.
    + apply (IH _ Hhi). lia.
Qed.

(** ** nextPowerOfTwo *)

Definition isPowerOfTwo (n : Z) : Prop := exists k, 0 <= k /\ n = 2 ^ k.

Definition smallestPowerOfTwoAtLeast (v r : Z) : Prop :=
  isPowerOfTwo r /\ v <= r /\
  forall r', isPowerOfTwo r' -> v <= r' -> r <= r'.

(** The five or-shift steps, on their own. *)
Definition smear (v : Z) : Z :=
  let v := Z.lor v (Z.shiftr v 1) in
  let v := Z.lor v (Z.shiftr v 2) in
  let v := Z.lor v (Z.shiftr v 4) in
  let v := Z.lor v (Z.shiftr v 8) in
  let v := Z.lor v (Z.shiftr v 16) in
  v.

Lemma nextPowerOfTwo_smear (v : Z) :
  nextPowerOfTwo v = GoInt.wrap (smear (GoInt.wrap (v - 1)) + 1).
Proof. reflexivity. Qed.

(** Bit [i] of [y] is set exactly when one of the [n] bits of [x] from
    [i] upwards is. *)
Definition covers (x y n : Z) : Prop :=
  forall i, 0 <= i ->
    (Z.testbit y i = true <-> exists d, 0 <= d < n /\ Z.testbit x (i + d) = true).

Lemma covers_start (x : Z) : covers x x 1.
Proof.
  intros i Hi. split.
  - intros H. exists 0. split; [lia|]. now rewrite Z.add_0_r.
  - intros (d & Hd & H). replace (i + d) with i in H by lia. exact H.
Qed.

Lemma covers_step (x y n : Z) :
  0 < n -> covers x y n -> covers x (Z.lor y (Z.shiftr y n)) (2 * n).
Proof.
  intros Hn Hc i Hi.
  rewrite Z.lor_spec, Z.shiftr_spec, orb_true_iff by lia.
  rewrite (Hc i Hi), (Hc (i + n)) by lia. split.
  - intros [(d & Hd & H)|(d & Hd & H)].
    + exists d. split; [lia|exact H].
    + exists (n + d). split; [lia|]. now replace (i + (n + d)) with (i + n + d) by lia.
  - intros (d & Hd & H). destruct (Z.lt_ge_cases d n).
    + left. exists d. split; [lia|exact H].
    + right. exists (d - n). split; [lia|].
      now replace (i + n + (d - n)) with (i + d) by lia.
Qed.

Lemma smear_covers (x : Z) : covers x (smear x) 32.
Proof.
  unfold smear.
  apply (covers_step x _ 16); [lia|].
  apply (covers_step x _ 8); [lia|].
  apply (covers_step x _ 4); [lia|].
  apply (covers_step x _ 2); [lia|].
  apply (covers_step x _ 1); [lia|].
  apply covers_start.
Qed.

Lemma smear_zero : smear 0 = 0.
Proof. reflexivity. Qed.

Lemma smear_ones (x : Z) :
  0 < x < 2 ^ 32 -> smear x = 2 ^ (Z.log2 x + 1) - 1.
Proof.
  intros Hx.
  assert (Hk : 0 <= Z.log2 x < 32).
  { split; [apply Z.log2_nonneg|]. apply Z.log2_lt_pow2; lia. }
  rewrite Z.sub_1_r, <- Z.ones_equiv.
  apply Z.bits_inj'. intros i Hi.
  destruct (Z.lt_ge_cases i (Z.log2 x + 1)) as [Hlo|Hhi].
  - rewrite Z.ones_spec_low by lia.
    apply (smear_covers x i Hi). exists (Z.log2 x - i). split; [lia|].
    replace (i + (Z.log2 x - i)) with (Z.log2 x) by lia.
    apply Z.bit_log2. lia.
  - rewrite Z.ones_spec_high by lia.
    destruct (Z.testbit (smear x) i) eqn:E; [|reflexivity].
    apply (smear_covers x i Hi) in E as (d & Hd & E).
    rewrite Z.bits_above_log2 in E by lia. discriminate.
Qed.

Lemma pow2_le_inv (j k : Z) : 0 <= j -> 0 <= k -> 2 ^ k < 2 ^ j -> k + 1 <= j.
Proof.
  intros Hj Hk H. apply Z.pow_lt_mono_r_iff in H; lia.
Qed.

Lemma nextPowerOfTwo_smallest (v : Z) :
  1 <= v <= 2 ^ 32 -> smallestPowerOfTwoAtLeast v (nextPowerOfTwo v).
Proof.
  intros Hv. rewrite nextPowerOfTwo_smear.
  rewrite (wrap_small (v - 1)) by lia.
  destruct (Z.eq_dec v 1) as [->|Hne].
  - change (smallestPowerOfTwoAtLeast 1 1). split; [exists 0; split; [lia|reflexivity]|].
    split; [lia|]. intros r' (k & Hk & ->) _.
    assert (0 < 2 ^ k) by (apply Z.pow_pos_nonneg; lia). lia.
  - assert (Hx : 0 < v - 1 < 2 ^ 32) by lia.
    rewrite (smear_ones _ Hx).
    assert (Hk : 0 <= Z.log2 (v - 1) < 32).
    { split; [apply Z.log2_nonneg|]. apply Z.log2_lt_pow2; lia. }
    pose proof (Z.log2_spec (v - 1) ltac:(lia)) as Hspec.
    rewrite <- Z.add_1_r in Hspec.
    assert (Hle : 2 ^ (Z.log2 (v - 1) + 1) <= 2 ^ 32)
      by (apply Z.pow_le_mono_r; lia).
    rewrite wrap_small by lia.
    replace (2 ^ (Z.log2 (v - 1) + 1) - 1 + 1) with (2 ^ (Z.log2 (v - 1) + 1)) by lia.
    split; [exists (Z.log2 (v - 1) + 1); split; [lia|reflexivity]|].
    split; [lia|]. intros r' (j & Hj & ->) Hvj.
    apply Z.pow_le_mono_r; [lia|].
    apply pow2_le_inv; lia.
Qed.

(** ** getPaletteImageDimensions *)

(** [ceil(n / 256)] as an integer. *)
Definition ceilDiv256 (n : Z) : Z := (n + 255) / 256.

(** The sizing policy in the words of the specification. *)
Definition paletteSizingPolicy (n : Z) : Z * Z :=
  if n <=? 128 then (nextPowerOfTwo n, 1)
  else if n <=? 256 then (256, 1)
  else (256, nextPowerOfTwo (ceilDiv256 n)).

(** ** float64 of an integer below 2^53, exactly *)

Lemma digits2_pos_size (p : positive) : digits2_pos p = Pos.size p.
Proof. induction p as [p IH|p IH|]; cbn; now rewrite ?IH. Qed.

Lemma digits2_bounds (p : positive) :
  2 ^ (Zpos (digits2_pos p) - 1) <= Zpos p < 2 ^ Zpos (digits2_pos p).
Proof.
  rewrite digits2_pos_size.
  pose proof (Pos.size_gt p) as Hgt. pose proof (Pos.size_le p) as Hle.
  apply Pos2Z.pos_lt_pos in Hgt. apply Pos2Z.pos_le_pos in Hle.
  rewrite Pos2Z.inj_pow in Hgt, Hle. change (Zpos 2) with 2 in *.
  split; [|exact Hgt].
  change (Zpos p~0) with (2 * Zpos p) in Hle.
  replace (Zpos (Pos.size p)) with (Zpos (Pos.size p) - 1 + 1) in Hle by lia.
  rewrite Z.pow_add_r in Hle by lia. lia.
Qed.

(** A mantissa of 53 bits. *)
Definition full (m : positive) : Prop := 2 ^ 52 <= Zpos m < 2 ^ 53.

Lemma digits2_full (m : positive) : full m -> Zpos (digits2_pos m) = 53.
Proof.
  intros [Hlo Hhi]. pose proof (digits2_bounds m) as [Hl Hh].
  assert (52 < Zpos (digits2_pos m))
    by (apply (Z.pow_lt_mono_r_iff 2); lia).
  assert (Zpos (digits2_pos m) - 1 < 53)
    by (apply (Z.pow_lt_mono_r_iff 2); lia).
  lia.
Qed.

Lemma iter_xO (k p : positive) : Zpos (Pos.iter xO p k) = Zpos p * 2 ^ Zpos k.
Proof.
  induction k as [|k IH] using Pos.peano_ind.
  - cbn. lia.
  - rewrite Pos.iter_succ, Pos2Z.inj_succ, Z.pow_succ_r by lia.
    change (Zpos (Pos.iter xO p k)~0) with (2 * Zpos (Pos.iter xO p k)).
    rewrite IH. lia.
Qed.

(** A 53-bit mantissa within the exponent range is not rounded. *)
Lemma binary_round_aux_full (sx : bool) (m : positive) (e : Z) :
  full m -> -1074 <= e <= 971 ->
  binary_round_aux prec emax sx (Zpos m) e loc_Exact = S754_finite sx m e.
Proof.
  intros Hm He. unfold binary_round_aux, shr_fexp.
  cbn [Zdigits2 round_nearest_even shr_record_of_loc].
  rewrite (digits2_full m Hm).
  replace (fexp prec emax (53 + e) - e) with 0
    by (unfold fexp, emin, prec, emax; lia).
  cbn [shr shr_m loc_of_shr_record round_nearest_even shr_record_of_loc Zdigits2].
  rewrite (digits2_full m Hm).
  replace (fexp prec emax (53 + e) - e) with 0
    by (unfold fexp, emin, prec, emax; lia).
  cbn [shr shr_m].
  destruct (Z.leb_spec e (emax - prec)) as [_|Hgt];
    [reflexivity|unfold emax, prec in Hgt; lia].
Qed.

(** [float64(c)] is [c] itself, normalised to 53 bits. *)
Lemma of_Z_exact (c : Z) :
  0 < c < 2 ^ 53 ->
  exists m e, F64.of_Z c = S754_finite false m e /\ full m /\
              -52 <= e <= 0 /\ Zpos m = c * 2 ^ (- e).
Proof.
  intros Hc. destruct c as [|p|p]; try lia.
  pose proof (digits2_bounds p) as [Hl Hh].
  assert (Hd : 1 <= Zpos (digits2_pos p) <= 53).
  { split; [lia|].
    assert (Zpos (digits2_pos p) - 1 < 53)
      by (apply (Z.pow_lt_mono_r_iff 2); lia). lia. }
  unfold F64.of_Z, binary_normalize, binary_round.
  replace (fexp prec emax (Zpos (digits2_pos p) + 0))
    with (Zpos (digits2_pos p) - 53)
    by (unfold fexp, emin, prec, emax; lia).
  unfold shl_align.
  destruct (Zpos (digits2_pos p) - 53 - 0) as [|k|k] eqn:Hk; try lia.
  - assert (Hfull : full p).
    { unfold full. replace (Zpos (digits2_pos p)) with 53 in * by lia.
      change (53 - 1) with 52 in Hl. lia. }
    exists p, 0. rewrite (binary_round_aux_full false p 0 Hfull) by lia.
    split; [reflexivity|]. split; [exact Hfull|]. split; [lia|].
    change (2 ^ (- 0)) with 1. lia.
  - assert (Hfull : full (Pos.iter xO p k)).
    { unfold full. rewrite iter_xO.
      replace (Zpos k) with (53 - Zpos (digits2_pos p)) by lia.
      assert (Hsplit : 2 ^ 53 = 2 ^ Zpos (digits2_pos p) *
                                2 ^ (53 - Zpos (digits2_pos p)))
        by (rewrite <- Z.pow_add_r by lia; f_equal; lia).
      assert (Hsplit' : 2 ^ 52 = 2 ^ (Zpos (digits2_pos p) - 1) *
                                 2 ^ (53 - Zpos (digits2_pos p)))
        by (rewrite <- Z.pow_add_r by lia; f_equal; lia).
      assert (0 < 2 ^ (53 - Zpos (digits2_pos p)))
        by (apply Z.pow_pos_nonneg; lia).
      rewrite Hsplit, Hsplit'. nia. }
    exists (Pos.iter xO p k), (Zpos (digits2_pos p) - 53).
    rewrite (binary_round_aux_full false _ _ Hfull) by lia.
    split; [reflexivity|]. split; [exact Hfull|]. split; [lia|].
    rewrite iter_xO. do 2 f_equal. lia.
Qed.

(** Dividing a normalised float by [256.0] lowers its exponent by 8. *)
Lemma div_f256 (m : positive) (e : Z) :
  full m -> -52 <= e <= 0 ->
  F64.div (S754_finite false m e) f256 = S754_finite false m (e - 8).
Proof.
  intros Hm He. unfold F64.div, f256, SFdiv, SFdiv_core_binary.
  cbn [Zdigits2 xorb]. rewrite (digits2_full m Hm).
  change (Zpos (digits2_pos 4503599627370496)) with 53.
  replace (Z.min (fexp prec emax (53 + e - (53 + -44))) (e - -44))
    with (e - 9) by (unfold fexp, emin, prec, emax; lia).
  replace (e - -44 - (e - 9)) with 53 by lia.
  assert (Hdiv : Z.div_eucl (Z.shiftl (Zpos m) 53) 4503599627370496 =
                 (Zpos m~0, 0)).
  { pose proof (Z.div_eucl_eq (Z.shiftl (Zpos m) 53) 4503599627370496
                  ltac:(lia)) as Heq.
    pose proof (Z.mod_pos_bound (Z.shiftl (Zpos m) 53) 4503599627370496
                  ltac:(lia)) as Hmod.
    unfold Z.modulo in Hmod.
    destruct (Z.div_eucl (Z.shiftl (Zpos m) 53) 4503599627370496) as [q r].
    rewrite Z.shiftl_mul_pow2 in Heq by lia.
    change (2 ^ 53) with 9007199254740992 in Heq.
    change (Zpos m~0) with (2 * Zpos m).
    f_equal; lia. }
  rewrite Hdiv.
  change (new_location 4503599627370496 0) with loc_Exact.
  unfold binary_round_aux, shr_fexp.
  cbn [Zdigits2 digits2_pos shr_record_of_loc].
  rewrite Pos2Z.inj_succ, (digits2_full m Hm).
  replace (fexp prec emax (Z.succ 53 + (e - 9)) - (e - 9)) with 1
    by (unfold fexp, emin, prec, emax; lia).
  cbn [shr SpecFloat.iter_pos shr_1 shr_m orb loc_of_shr_record
       round_nearest_even shr_record_of_loc Zdigits2].
  rewrite (digits2_full m Hm).
  replace (fexp prec emax (53 + (e - 9 + 1)) - (e - 9 + 1)) with 0
    by (unfold fexp, emin, prec, emax; lia).
  cbn [shr shr_m].
  destruct (Z.leb_spec (e - 9 + 1) (emax - prec)) as [_|Hgt];
    [|unfold emax, prec in Hgt; lia].
  f_equal. lia.
Qed.

(** [int(float64(c))] gives [c] back. *)
Lemma to_int_of_Z (c : Z) : 0 < c < 2 ^ 53 -> F64.to_int (F64.of_Z c) = c.
Proof.
  intros Hc. destruct (of_Z_exact c Hc) as (m & e & -> & _ & He & Hm).
  unfold F64.to_int, F64.trunc.
  assert (Ht : match e with
               | Z.neg p => Z.shiftr (Zpos m) (Zpos p)
               | _ => Z.shiftl (Zpos m) e
               end = c).
  { destruct e as [|p|p]; try lia.
    - change (2 ^ (- 0)) with 1 in Hm. rewrite Z.shiftl_0_r. lia.
    - rewrite Z.shiftr_div_pow2 by lia. rewrite Hm.
      change (- Z.neg p) with (Zpos p). apply Z.div_mul.
      apply Z.pow_nonzero; lia. }
  rewrite Ht. apply wrap_small. lia.
Qed.

(** The float detour of [getPaletteImageDimensions],
    [int(math.Ceil(float64(n) / 256.0))], is the integer ceiling for
    every [n] that a float64 holds exactly. *)
Lemma ceil_div_256 (n : Z) :
  0 < n < 2 ^ 53 ->
  F64.to_int (F64.ceil (F64.div (F64.of_Z n) f256)) = ceilDiv256 n.
Proof.
  intros Hn. destruct (of_Z_exact n Hn) as (m & e & -> & Hfull & He & Hm).
  rewrite (div_f256 m e Hfull He).
  destruct (e - 8) as [|p|p] eqn:Hp; try lia.
  unfold F64.ceil.
  assert (Hpow : 2 ^ Zpos p = 2 ^ (- e) * 256).
  { replace (Zpos p) with (- e + 8) by lia.
    rewrite Z.pow_add_r by lia. reflexivity. }
  assert (Hpos : 0 < 2 ^ (- e)) by (apply Z.pow_pos_nonneg; lia).
  assert (Hq : Z.shiftr (Zpos m) (Zpos p) = n / 256).
  { rewrite Z.shiftr_div_pow2 by lia. rewrite Hm, Hpow.
    rewrite (Z.mul_comm n), Z.div_mul_cancel_l by lia. reflexivity. }
  rewrite Hq. rewrite Z.shiftl_mul_pow2 by lia. rewrite Hm, Hpow.
  pose proof (Z.div_mod n 256 ltac:(lia)) as Hdm.
  pose proof (Z.mod_pos_bound n 256 ltac:(lia)) as Hmod.
  assert (Hc : (if n / 256 * (2 ^ (- e) * 256) =? n * 2 ^ (- e)
                then n / 256 else n / 256 + 1) = ceilDiv256 n).
  { unfold ceilDiv256.
    destruct (Z.eqb_spec (n / 256 * (2 ^ (- e) * 256)) (n * 2 ^ (- e)))
      as [Heq|Hne].
    - assert (n mod 256 = 0) by nia.
      apply (Z.div_unique _ _ _ 255); lia.
    - assert (n mod 256 <> 0) by (intros H0; apply Hne; nia).
      apply (Z.div_unique _ _ _ (n mod 256 - 1)); lia. }
  rewrite Hc. apply to_int_of_Z. unfold ceilDiv256.
  split.
  - apply Z.div_str_pos. lia.
  - apply Z.div_lt_upper_bound; lia.
Qed.

Lemma getPaletteImageDimensions_exact (n : Z) :
  1 <= n <= 2 ^ 53 -> getPaletteImageDimensions n = paletteSizingPolicy n.
Proof.
  intros Hn.
  destruct (Z.eq_dec n (2 ^ 53)) as [->|Hne]; [vm_compute; reflexivity|].
  unfold getPaletteImageDimensions, paletteSizingPolicy.
  destruct (Z.ltb_spec 256 n), (Z.leb_spec n 128), (Z.leb_spec n 256);
    try lia; try reflexivity.
  now rewrite ceil_div_256 by lia.
Qed.

Lemma getPaletteImageDimensions_policy (n : Z) :
  1 <= n <= 65536 -> getPaletteImageDimensions n = paletteSizingPolicy n.
Proof. intros Hn. apply getPaletteImageDimensions_exact. lia. Qed.

(** C6, as the code has it.  For every catalogue size N from 1 up to
    2^53, the integers a float64 holds exactly,
    [getPaletteImageDimensions N] is [(nextPowerOfTwo N, 1)] if N <= 128,
    [(256, 1)] if 128 < N <= 256 and
    [(256, nextPowerOfTwo (ceil (N / 256)))] if N > 256; [nextPowerOfTwo v]
    is the smallest power of two at least [v] for every v from 1 up to
    2^32; and the tabulated values hold. *)
Theorem palette_dimensions_policy :
  (forall N, 1 <= N <= 2 ^ 53 ->
     getPaletteImageDimensions N =
       if N <=? 128 then (nextPowerOfTwo N, 1)
       else if N <=? 256 then (256, 1)
       else (256, nextPowerOfTwo (ceilDiv256 N))) /\
  (forall v, 1 <= v <= 2 ^ 32 ->
     smallestPowerOfTwoAtLeast v (nextPowerOfTwo v)) /\
  map getPaletteImageDimensions [1; 128; 129; 256; 257; 1024] =
    [(1, 1); (128, 1); (256, 1); (256, 1); (256, 2); (256, 4)] /\
  map nextPowerOfTwo [1; 5; 256; 257] = [1; 8; 256; 512].
Proof.
  split; [exact getPaletteImageDimensions_exact|].
  split; [exact nextPowerOfTwo_smallest|].
  split; reflexivity.
Qed.

Lemma palette_dimensions_policy_witness :
  getPaletteImageDimensions 300 = (256, nextPowerOfTwo 2) /\
  getPaletteImageDimensions 100000000 = (256, nextPowerOfTwo 390625) /\
  smallestPowerOfTwoAtLeast 5 (nextPowerOfTwo 5).
Proof.
  destruct palette_dimensions_policy as (Hdim & Hpow & _).
  split; [|split].
  - apply (Hdim 300). lia.
  - apply (Hdim 100000000). lia.
  - apply (Hpow 5). lia.
Defined.

(** C6 as stated fails at both ends.  The shifts of [nextPowerOfTwo]
    stop at 16, so on Go's 64-bit [int] the closure of 2^32 + 1 is
    2^33 - 1, which is not the smallest power of two at least 2^32 + 1
    (that one is 2^33).  And [float64(N)] rounds from 2^53 + 1 on: there
    the code takes the ceiling of 2^45 where [ceil (N / 256)] is
    2^45 + 1, and the height it returns is not the one of the policy. *)
Lemma sizing_policy_limits :
  (1 <= 2 ^ 32 + 1 /\
   nextPowerOfTwo (2 ^ 32 + 1) = 2 ^ 33 - 1 /\
   ~ smallestPowerOfTwoAtLeast (2 ^ 32 + 1) (nextPowerOfTwo (2 ^ 32 + 1))) /\
  (1 <= 2 ^ 53 + 1 /\
   ceilDiv256 (2 ^ 53 + 1) = 2 ^ 45 + 1 /\
   getPaletteImageDimensions (2 ^ 53 + 1) = (256, nextPowerOfTwo (2 ^ 45)) /\
   getPaletteImageDimensions (2 ^ 53 + 1) <>
     (256, nextPowerOfTwo (ceilDiv256 (2 ^ 53 + 1)))).
Proof.
  split.
  - split; [lia|]. split; [reflexivity|].
    intros ((k & Hk & Hpow) & _).
    change (nextPowerOfTwo (2 ^ 32 + 1)) with (2 ^ 33 - 1) in Hpow.
    destruct (Z.le_gt_cases k 32) as [Hle|Hgt].
    + assert (2 ^ k <= 2 ^ 32) by (apply Z.pow_le_mono_r; lia). lia.
    + assert (2 ^ 33 <= 2 ^ k) by (apply Z.pow_le_mono_r; lia). lia.
  - split; [lia|]. split; [reflexivity|]. split; [reflexivity|].
    vm_compute. discriminate.
Qed.


(** ** The normaliser *)

(** On every component a [color.Color] may return, the float scaling of
    [colourTo8BitRGBA] is the integer quotient by 257, that is
    [v * 255 / 65535] rounded towards zero: checked on each of them. *)
Definition scale_agrees (v : Z) : bool := scaleChannel v =? v / 257.

Lemma scale_checked : all_range scale_agrees 16 0 = true.
Proof. vm_compute. reflexivity. Qed.

Lemma scaleChannel_div (v : Z) : 0 <= v <= 65535 -> scaleChannel v = v / 257.
Proof.
  intros Hv. apply Z.eqb_eq.
  apply (all_range_spec _ _ _ scale_checked v). simpl. lia.
Qed.

Lemma scaleChannel_byte (v : Z) : 0 <= scaleChannel v < 256.
Proof. unfold scaleChannel, F64.to_uint8, GoInt.uint8. apply Z.mod_pos_bound. lia. Qed.

(** A byte repeated in both halves of a 16-bit word is 257 times it. *)
Definition widen_agrees (v : Z) : bool := Z.lor v (Z.shiftl v 8) =? 257 * v.

Lemma widen_checked : all_range widen_agrees 8 0 = true.
Proof. vm_compute. reflexivity. Qed.

Lemma widen_byte (v : Z) : 0 <= v <= 255 -> Z.lor v (Z.shiftl v 8) = 257 * v.
Proof.
  intros Hv. apply Z.eqb_eq.
  apply (all_range_spec _ _ _ widen_checked v). simpl. lia.
Qed.

Lemma colourTo8BitRGBA_div (c : color.Color) :
  color.in_range c ->
  colourTo8BitRGBA c =
    let '(r, g, b, a) := color.Color_RGBA c in
    color.mkRGBA (r / 257) (g / 257) (b / 257) (a / 257).
Proof.
  unfold color.in_range, colourTo8BitRGBA.
  destruct (color.Color_RGBA c) as [[[r g] b] a].
  intros (Hr & Hg & Hb & Ha).
  now rewrite !scaleChannel_div by assumption.
Qed.

Lemma palette_key_of_opaque (r g b : Z) :
  0 <= r <= 255 -> 0 <= g <= 255 -> 0 <= b <= 255 ->
  colourTo8BitPaletteRGBA (color.OfNRGBA (color.mkNRGBA r g b 255)) =
    color.mkRGBA r g b 255.
Proof.
  intros Hr Hg Hb.
  unfold colourTo8BitPaletteRGBA, colourTo8BitRGBA. cbn [color.Color_RGBA color.nR color.nG color.nB color.nA color.R color.G color.B].
  rewrite !widen_byte by assumption.
  rewrite !scaleChannel_div by (split; [apply Z.div_pos|apply Z.div_le_upper_bound]; lia).
  f_equal; rewrite Z.div_mul by lia; rewrite Z.mul_comm, Z.div_mul; lia.
Qed.

Lemma palette_key_of_transparent (r g b : Z) :
  colourTo8BitPaletteRGBA (color.OfNRGBA (color.mkNRGBA r g b 0)) =
    color.mkRGBA 0 0 0 255.
Proof.
  unfold colourTo8BitPaletteRGBA, colourTo8BitRGBA. cbn [color.Color_RGBA color.nR color.nG color.nB color.nA color.R color.G color.B].
  rewrite !Z.mul_0_r. reflexivity.
Qed.

(** What the normaliser does with alpha: it keeps the premultiplied
    components [RGBA()] returns.  Each 8-bit channel of the key is the
    16-bit premultiplied component divided by 257, and alpha is forced to
    255; a fully transparent non-premultiplied pixel gets opaque black
    and a fully opaque one keeps its own red, green and blue. *)
Lemma palette_key_keeps_premultiplication :
  (forall c1 c2 r g b a1 a2,
     color.Color_RGBA c1 = (r, g, b, a1) ->
     color.Color_RGBA c2 = (r, g, b, a2) ->
     colourTo8BitPaletteRGBA c1 = colourTo8BitPaletteRGBA c2) /\
  (forall c r g b a,
     color.in_range c -> color.Color_RGBA c = (r, g, b, a) ->
     colourTo8BitPaletteRGBA c = color.mkRGBA (r / 257) (g / 257) (b / 257) 255) /\
  (forall r g b,
     0 <= r <= 255 -> 0 <= g <= 255 -> 0 <= b <= 255 ->
     colourTo8BitPaletteRGBA (color.OfNRGBA (color.mkNRGBA r g b 0)) =
       color.mkRGBA 0 0 0 255 /\
     colourTo8BitPaletteRGBA (color.OfNRGBA (color.mkNRGBA r g b 255)) =
       color.mkRGBA r g b 255 /\
     (colourTo8BitPaletteRGBA (color.OfNRGBA (color.mkNRGBA r g b 0)) =
      colourTo8BitPaletteRGBA (color.OfNRGBA (color.mkNRGBA r g b 255))
      <-> r = 0 /\ g = 0 /\ b = 0)).
Proof.
  split; [|split].
  - intros c1 c2 r g b a1 a2 H1 H2.
    unfold colourTo8BitPaletteRGBA, colourTo8BitRGBA. now rewrite H1, H2.
  - intros c r g b a Hc Hrgba.
    unfold colourTo8BitPaletteRGBA. rewrite (colourTo8BitRGBA_div c Hc), Hrgba.
    reflexivity.
  - intros r g b Hr Hg Hb.
    rewrite palette_key_of_transparent, palette_key_of_opaque by assumption.
    split; [reflexivity|]. split; [reflexivity|]. split.
    + intros [= <- <- <-]. auto.
    + intros (-> & -> & ->). reflexivity.
Qed.

(** ** The index encoder *)

(** What the encoder writes for a 16-bit index: the low byte in the
    first channel, 0 in the second and third, the alpha it is given. *)
Lemma indexPixel_channels (col : UniqueColour.t) (inpix : color.RGBA) :
  0 <= UniqueColour.Index col < 65536 ->
  color.R (indexPixel col inpix) = UniqueColour.Index col mod 256 /\
  color.G (indexPixel col inpix) = 0 /\
  color.B (indexPixel col inpix) = 0 /\
  color.A (indexPixel col inpix) = color.A inpix.
Proof.
  intros Hi. unfold indexPixel. cbn [color.R color.G color.B color.A].
  repeat split.
  - change 65535 with (Z.ones 16). rewrite Z.land_ones by lia.
    change (2 ^ 16) with 65536. now rewrite (Z.mod_small _ 65536) by lia.
  - rewrite Z.shiftr_div_pow2 by lia. change (2 ^ 16) with 65536.
    now rewrite Z.div_small by lia.
Qed.

Lemma indexPixel_channels_witness :
  color.R (indexPixel (UniqueColour.withIndex UniqueColour.zero 300)
                      (color.mkRGBA 1 2 3 255)) = 300 mod 256 /\
  color.G (indexPixel (UniqueColour.withIndex UniqueColour.zero 300)
                      (color.mkRGBA 1 2 3 255)) = 0 /\
  color.B (indexPixel (UniqueColour.withIndex UniqueColour.zero 300)
                      (color.mkRGBA 1 2 3 255)) = 0 /\
  color.A (indexPixel (UniqueColour.withIndex UniqueColour.zero 300)
                      (color.mkRGBA 1 2 3 255)) = 255.
Proof.
  apply (indexPixel_channels (UniqueColour.withIndex UniqueColour.zero 300)
                             (color.mkRGBA 1 2 3 255)).
  simpl. lia.
Defined.

(** Every pixel the encoder writes is opaque: the alpha it passes on is
    that of the palette key. *)
Lemma indexPixel_alpha (col : UniqueColour.t) (c : color.Color) :
  color.A (indexPixel col (colourTo8BitPaletteRGBA c)) = 255.
Proof. reflexivity. Qed.

Lemma widen_high (v : Z) : 0 <= v <= 255 -> (257 * v / 256) mod 256 = v.
Proof.
  intros Hv.
  rewrite <- (Z.div_unique (257 * v) 256 v v) by lia.
  apply Z.mod_small. lia.
Qed.

Lemma nrgbaModel_opaque (r g b : Z) :
  0 <= r <= 255 -> 0 <= g <= 255 -> 0 <= b <= 255 ->
  color.nrgbaModel (color.OfRGBA (color.mkRGBA r g b 255)) =
    color.mkNRGBA r g b 255.
Proof.
  intros Hr Hg Hb. unfold color.nrgbaModel. cbn [color.Color_RGBA color.R color.G color.B color.A].
  change (Z.lor 255 (Z.shiftl 255 8) =? 65535) with true. cbn match.
  rewrite !widen_byte by assumption. unfold GoInt.uint8.
  rewrite !Z.shiftr_div_pow2 by lia.
  change (2 ^ 8) with 256. now rewrite !widen_high by assumption.
Qed.

(** ** Runs of the whole function on concrete images *)

Definition onePixel (c : color.Color) : image.Image :=
  image.mkImage (image.mkRect 0 0 1 1) (fun _ _ => c).

(** 256 greys in a row, then pure blue: 257 colours. *)
Definition greysAndBlue : image.Image :=
  image.mkImage (image.mkRect 0 0 257 1)
    (fun x _ => if x <? 256 then color.OfRGBA (color.mkRGBA x x x 255)
                else color.OfRGBA (color.mkRGBA 0 0 255 255)).

(** The canonical colours of an image, pixel by pixel, and the distinct
    ones among them. *)
Definition canonicalColours (img : image.Image) : list color.RGBA :=
  (fun xy => colourTo8BitPaletteRGBA (image.At img xy.1 xy.2))
    <$> coords (image.Bounds img).

Definition distinctColours (img : image.Image) : list color.RGBA :=
  remove_dups (canonicalColours img).

(** The index image among the files written. *)
Fixpoint writtenSprite (evs : list event) : option image.NRGBA :=
  match evs with
  | [] => None
  | EvSprite _ s :: _ => Some s
  | _ :: evs => writtenSprite evs
  end.

(** What the function returned and the index image it wrote. *)
Definition returned (r : option ((error + list color.RGBA) * list event))
  : option (error + list color.RGBA) := fst <$> r.

Definition spriteAt (r : option ((error + list color.RGBA) * list event))
    (x y : Z) : option color.NRGBA :=
  out ← r; s ← writtenSprite out.2; Some (image.NRGBAAt s x y).

(** C1 fails on the code: with no palette path the loop that appends to
    the returned slice is skipped.  An image of one opaque pixel has one
    distinct canonical colour, and the palette returned is empty. *)
Theorem palette_empty_without_texture_path :
  length (distinctColours (onePixel (color.OfNRGBA (color.mkNRGBA 200 100 50 255)))) = 1%nat /\
  returned (GenerateFromImage quietWorld
              (onePixel (color.OfNRGBA (color.mkNRGBA 200 100 50 255)))
              "sprite.png" EmptyString) = Some (inr []) /\
  returned (GenerateFromImage quietWorld
              (onePixel (color.OfNRGBA (color.mkNRGBA 200 100 50 255)))
              "sprite.png" "palette.png") =
    Some (inr [color.mkRGBA 200 100 50 255]).
Proof. vm_compute. repeat split; reflexivity. Qed.

(** The same red, green and blue twice: once fully transparent, once
    fully opaque. *)
Definition twoAlphas : image.Image :=
  image.mkImage (image.mkRect 0 0 2 1)
    (fun x _ => if x =? 0 then color.OfNRGBA (color.mkNRGBA 200 100 50 0)
                else color.OfNRGBA (color.mkNRGBA 200 100 50 255)).

(** C7 fails on the code.  The comment at the key construction wants
    colours that are not alpha-premultiplied, but the normaliser keeps
    the premultiplied components of [RGBA()]: the transparent pixel gets
    the key of opaque black and the opaque one its own colour, so the two
    do not collapse: the catalogue of [twoAlphas] has two entries and the
    palette returned two colours; and a half-transparent pure red comes
    out premultiplied, 128 and not 255. *)
Theorem transparent_and_opaque_do_not_collapse :
  colourTo8BitPaletteRGBA (color.OfNRGBA (color.mkNRGBA 200 100 50 0)) =
    color.mkRGBA 0 0 0 255 /\
  colourTo8BitPaletteRGBA (color.OfNRGBA (color.mkNRGBA 200 100 50 255)) =
    color.mkRGBA 200 100 50 255 /\
  distinctColours twoAlphas =
    [color.mkRGBA 0 0 0 255; color.mkRGBA 200 100 50 255] /\
  returned (GenerateFromImage quietWorld twoAlphas "sprite.png" "palette.png") =
    Some (inr [color.mkRGBA 0 0 0 255; color.mkRGBA 200 100 50 255]) /\
  colourTo8BitRGBA (color.OfNRGBA (color.mkNRGBA 255 0 0 128)) =
    color.mkRGBA 128 0 0 128.
Proof. vm_compute. repeat split; reflexivity. Qed.

(** The palette colour a consumer finds for a pixel: the index decoded
    from the first two channels of the index image (first + 256 * second),
    looked up in the palette returned. *)
Definition decodeIndex (p : color.NRGBA) : nat :=
  Z.to_nat (color.nR p + 256 * color.nG p).

Definition lookedUp (r : option ((error + list color.RGBA) * list event))
    (x y : Z) : option color.RGBA :=
  p ← spriteAt r x y;
  res ← returned r;
  match res with
  | inr palette => palette !! decodeIndex p
  | inl _ => None
  end.

(** The colour the palette returned holds at an index. *)
Definition paletteAt (r : option ((error + list color.RGBA) * list event))
    (n : nat) : option color.RGBA :=
  res ← returned r;
  match res with
  | inr palette => palette !! n
  | inl _ => None
  end.

(** One run on the row of 256 greys and one blue: blue sorts last and
    sits at index 256 of the palette, black at index 0; both pixels are
    written as (0, 0, 0, 255), and the blue one decodes to index 0. *)
Lemma greysAndBlue_run :
  let run := GenerateFromImage quietWorld greysAndBlue "sprite.png" "palette.png" in
  (paletteAt run 256 = Some (color.mkRGBA 0 0 255 255) /\
   paletteAt run 0 = Some (color.mkRGBA 0 0 0 255)) /\
  (spriteAt run 256 0 = Some (color.mkNRGBA 0 0 0 255) /\
   spriteAt run 0 0 = Some (color.mkNRGBA 0 0 0 255)) /\
  lookedUp run 256 0 = Some (color.mkRGBA 0 0 0 255).
Proof. vm_compute. repeat split; reflexivity. Qed.

(** C2 fails on the code: [col.Index >> 16] of a 16-bit index is always
    0, so the high byte never reaches the second channel.  In the row of
    256 greys and one blue, the blue pixel has the catalogue entry of
    index 256 and is written as (0, 0, 0, 255), the same as the black
    pixel of index 0, where the specification has second channel
    256 / 256 = 1. *)
Theorem high_byte_of_index_lost :
  colourTo8BitPaletteRGBA (image.At greysAndBlue 256 0) = color.mkRGBA 0 0 255 255 /\
  colourTo8BitPaletteRGBA (image.At greysAndBlue 0 0) = color.mkRGBA 0 0 0 255 /\
  (paletteAt (GenerateFromImage quietWorld greysAndBlue "sprite.png" "palette.png") 256
     = Some (color.mkRGBA 0 0 255 255) /\
   paletteAt (GenerateFromImage quietWorld greysAndBlue "sprite.png" "palette.png") 0
     = Some (color.mkRGBA 0 0 0 255)) /\
  (spriteAt (GenerateFromImage quietWorld greysAndBlue "sprite.png" "palette.png") 256 0
     = Some (color.mkNRGBA 0 0 0 255) /\
   spriteAt (GenerateFromImage quietWorld greysAndBlue "sprite.png" "palette.png") 0 0
     = Some (color.mkNRGBA 0 0 0 255)).
Proof.
  split; [reflexivity|]. split; [reflexivity|].
  destruct greysAndBlue_run as (Hpalette & Hsprite & _).
  split; [exact Hpalette|exact Hsprite].
Qed.

(** C3 fails on the code, twice over.  The alpha written to the index
    image is that of the palette key, forced to 255, not the pixel's own:
    a single half-transparent red pixel has canonical alpha 128 and is
    written with alpha 255.  And the round trip breaks from index 256 on,
    the high byte being lost: in the row of 256 greys and one blue, the
    blue pixel decodes to index 0 and looks up black. *)
Theorem index_image_alpha_forced_opaque :
  color.A (colourTo8BitRGBA (color.OfNRGBA (color.mkNRGBA 255 0 0 128))) = 128 /\
  spriteAt (GenerateFromImage quietWorld
              (onePixel (color.OfNRGBA (color.mkNRGBA 255 0 0 128)))
              "sprite.png" "palette.png") 0 0 =
    Some (color.mkNRGBA 0 0 0 255) /\
  colourTo8BitPaletteRGBA (image.At greysAndBlue 256 0) =
    color.mkRGBA 0 0 255 255 /\
  lookedUp (GenerateFromImage quietWorld greysAndBlue "sprite.png" "palette.png")
           256 0 = Some (color.mkRGBA 0 0 0 255).
Proof.
  split; [reflexivity|]. split; [reflexivity|]. split; [reflexivity|].
  destruct greysAndBlue_run as (_ & _ & Hlookup). exact Hlookup.
Qed.

(** The palette image among the files written. *)
Fixpoint writtenPalette (evs : list event) : option image.RGBA :=
  match evs with
  | [] => None
  | EvPalette _ p :: _ => Some p
  | _ :: evs => writtenPalette evs
  end.

(** An image without pixels. *)
Definition noPixels : image.Image :=
  image.mkImage (image.mkRect 0 0 0 0) (fun _ _ => color.OfRGBA64 0 0 0 0).

(** ** The first loop: the catalogue of an image *)

(** The entry allocated for a new colour [p] (generate.go:109-111). *)
Definition entryOf (w : World) (p : color.RGBA) : UniqueColour.t :=
  let '(h, s, v) :=
    Hsv w (F64.div (F64.of_Z (color.R p)) f255)
          (F64.div (F64.of_Z (color.G p)) f255)
          (F64.div (F64.of_Z (color.B p)) f255) in
  UniqueColour.mk p h s v 0.

Lemma entryOf_RGBA (w : World) (p : color.RGBA) :
  UniqueColour.RGBA (entryOf w p) = p.
Proof. unfold entryOf. now destruct (Hsv w _ _ _) as [[h s] v]. Qed.

(** [cat] is the catalogue of the colours [seen]: its keys are exactly
    those colours, and each key points at its own entry, at an address
    already handed out. *)
Record catalogue_of (w : World) (cat : Catalogue) (seen : list color.RGBA)
  : Prop := {
  cat_keys : forall p, is_Some (colourMap cat !! p) <-> p ∈ seen;
  cat_entry : forall p a, colourMap cat !! p = Some a ->
                (a < next cat)%nat /\ heap cat !!! a = entryOf w p
}.

Lemma catalogue_of_empty (w : World) : catalogue_of w emptyCatalogue [].
Proof.
  split.
  - intros p. cbn. rewrite lookup_empty. split.
    + intros [x Hx]. discriminate.
    + intros H. inversion H.
  - intros p a. cbn. rewrite lookup_empty. discriminate.
Qed.

Lemma recordColour_ok (w : World) cat seen (c : color.Color) :
  catalogue_of w cat seen ->
  catalogue_of w (recordColour w cat c) (seen ++ [colourTo8BitPaletteRGBA c]).
Proof.
  intros [Hkeys Hentry]. unfold recordColour.
  set (p := colourTo8BitPaletteRGBA c).
  destruct (colourMap cat !! p) as [a|] eqn:Hp.
  - split; [|exact Hentry].
    intros q. rewrite Hkeys, elem_of_app, list_elem_of_singleton.
    split; [auto|]. intros [Hq| ->]; [exact Hq|]. apply Hkeys. eauto.
  - destruct (Hsv w _ _ _) as [[h s] v] eqn:Hhsv.
    assert (Hnew : UniqueColour.mk p h s v 0 = entryOf w p)
      by (unfold entryOf; now rewrite Hhsv).
    rewrite Hnew. split; cbn [colourMap heap next].
    + intros q. rewrite elem_of_app, list_elem_of_singleton, <- Hkeys.
      destruct (decide (p = q)) as [<-|Hne].
      * rewrite lookup_insert_eq. split; eauto.
      * rewrite lookup_insert_ne by exact Hne. split; [auto|].
        intros [Hq|Hq]; [exact Hq|congruence].
    + intros q a. destruct (decide (p = q)) as [<-|Hne].
      * rewrite lookup_insert_eq. intros [= <-].
        rewrite lookup_total_insert_eq. split; [lia|reflexivity].
      * rewrite lookup_insert_ne by exact Hne. intros Hq.
        destruct (Hentry q a Hq) as [Hlt Ha].
        rewrite lookup_total_insert_ne by lia. split; [lia|exact Ha].
Qed.

Lemma scan_ok (w : World) (img : image.Image) (l : list (Z * Z)) :
  forall cat seen,
    catalogue_of w cat seen ->
    catalogue_of w
      (foldl (fun cat xy => recordColour w cat (image.At img xy.1 xy.2)) cat l)
      (seen ++ ((fun xy => colourTo8BitPaletteRGBA (image.At img xy.1 xy.2)) <$> l)).
Proof.
  induction l as [|xy l IH]; intros cat seen Hok; cbn.
  - now rewrite app_nil_r.
  - rewrite cons_middle, app_assoc. apply IH. now apply recordColour_ok.
Qed.

Lemma scanImage_ok (w : World) (img : image.Image) :
  catalogue_of w (scanImage w img) (canonicalColours img).
Proof. apply (scan_ok w img _ emptyCatalogue []), catalogue_of_empty. Qed.

(** The map has one key per distinct colour seen. *)
Lemma catalogue_size (w : World) cat seen :
  catalogue_of w cat seen ->
  size (colourMap cat) = length (remove_dups seen).
Proof.
  intros [Hkeys _].
  rewrite <- (size_dom (D := gset color.RGBA)).
  rewrite <- (size_list_to_set (C := gset color.RGBA) (remove_dups seen))
    by apply NoDup_remove_dups.
  f_equal. apply set_eq. intros p.
  rewrite elem_of_dom, elem_of_list_to_set, elem_of_remove_dups. apply Hkeys.
Qed.

Lemma catalogue_key_of_entry (w : World) cat seen p a :
  catalogue_of w cat seen ->
  colourMap cat !! p = Some a -> UniqueColour.RGBA (heap cat !!! a) = p.
Proof.
  intros [_ Hentry] Hp. destruct (Hentry p a Hp) as [_ ->].
  apply entryOf_RGBA.
Qed.

(** Distinct keys point at distinct entries. *)
Lemma catalogue_pointers_NoDup (w : World) cat seen :
  catalogue_of w cat seen -> NoDup (map_to_list (colourMap cat)).*2.
Proof.
  intros Hok. apply NoDup_fmap_2_strong; [|apply NoDup_map_to_list].
  intros [p a] [q b] Hp Hq. cbn. intros <-.
  apply elem_of_map_to_list in Hp, Hq.
  rewrite <- (catalogue_key_of_entry w cat seen p a Hok Hp).
  now rewrite <- (catalogue_key_of_entry w cat seen q a Hok Hq).
Qed.

Lemma scanImage_size (w : World) (img : image.Image) :
  size (colourMap (scanImage w img)) = length (distinctColours img).
Proof. apply (catalogue_size w), scanImage_ok. Qed.

(** ** Numbering and sorting: what happens on the heap *)

(** Two heaps that differ in [Index] fields only. *)
Definition same_colours (h h' : Heap) : Prop :=
  forall a, UniqueColour.withIndex (h' !!! a) 0 = UniqueColour.withIndex (h !!! a) 0.

(** The entry held at position [n] of the list carries index [n]. *)
Definition indexed (h : Heap) (l : UniqueColourList) : Prop :=
  forall n a, l !! n = Some a -> UniqueColour.Index (h !!! a) = Z.of_nat n.

Lemma same_colours_refl (h : Heap) : same_colours h h.
Proof. intros a. reflexivity. Qed.

Lemma same_colours_trans (h1 h2 h3 : Heap) :
  same_colours h1 h2 -> same_colours h2 h3 -> same_colours h1 h3.
Proof. intros H12 H23 a. now rewrite H23, H12. Qed.

Lemma same_colours_set_index (h : Heap) (a : ptr) (i : Z) :
  same_colours h (<[a := UniqueColour.withIndex (h !!! a) i]> h).
Proof.
  intros b. destruct (decide (a = b)) as [<-|Hne].
  - now rewrite lookup_total_insert_eq.
  - now rewrite lookup_total_insert_ne.
Qed.

Lemma same_colours_RGBA (h h' : Heap) (a : ptr) :
  same_colours h h' -> UniqueColour.RGBA (h' !!! a) = UniqueColour.RGBA (h !!! a).
Proof. intros Hs. exact (f_equal UniqueColour.RGBA (Hs a)). Qed.

Lemma same_colours_less (h h' : Heap) (a b : ptr) :
  same_colours h h' ->
  lessColour (h' !!! a) (h' !!! b) = lessColour (h !!! a) (h !!! b).
Proof.
  intros Hs.
  change (lessColour (UniqueColour.withIndex (h' !!! a) 0)
                     (UniqueColour.withIndex (h' !!! b) 0) =
          lessColour (UniqueColour.withIndex (h !!! a) 0)
                     (UniqueColour.withIndex (h !!! b) 0)).
  now rewrite !Hs.
Qed.

(** *** The provisional numbering *)

Definition numberStep (st : Heap * UniqueColourList * Z) (c : ptr)
  : Heap * UniqueColourList * Z :=
  let '(h, colourList, nextIndex) := st in
  (<[c := UniqueColour.withIndex (h !!! c) nextIndex]> h,
   colourList ++ [c],
   GoInt.uint16 (nextIndex + 1)).

Lemma numberColours_fold (h : Heap) (visited : list ptr) :
  numberColours h visited = foldl numberStep (h, [], 0) visited.
Proof. reflexivity. Qed.

Lemma numberColours_gen (visited : list ptr) :
  forall (h : Heap) (acc : list ptr) (k : Z),
  exists h' k',
    foldl numberStep (h, acc, k) visited = (h', acc ++ visited, k') /\
    same_colours h h' /\
    (NoDup (acc ++ visited) ->
     (Z.of_nat (length (acc ++ visited)) <= 65536) ->
     k = Z.of_nat (length acc) mod 65536 ->
     indexed h acc -> indexed h' (acc ++ visited)).
Proof.
  induction visited as [|c rest IH]; intros h acc k.
  - exists h, k. rewrite app_nil_r. cbn.
    split; [reflexivity|]. split; [apply same_colours_refl|auto].
  - cbn [foldl numberStep].
    destruct (IH (<[c := UniqueColour.withIndex (h !!! c) k]> h)
                 (acc ++ [c]) (GoInt.uint16 (k + 1)))
      as (h' & k' & Hfold & Hsame & Hidx).
    exists h', k'. rewrite <- app_assoc in Hfold, Hidx. cbn in Hfold, Hidx.
    split; [exact Hfold|].
    split; [eapply same_colours_trans; [apply same_colours_set_index|exact Hsame]|].
    intros Hnd Hlen Hk Hacc. apply Hidx; [exact Hnd|exact Hlen| |].
    + rewrite length_app, Nat2Z.inj_add. cbn [length].
      unfold GoInt.uint16. rewrite Hk.
      rewrite Zplus_mod_idemp_l. reflexivity.
    + rewrite length_app in Hlen. cbn [length] in Hlen.
      intros n a Hn. apply lookup_snoc_Some in Hn as [[Hlt Hn]| [-> <-]].
      * apply list.NoDup_app in Hnd as (_ & Hdisj & _).
        assert (a <> c).
        { intros ->. apply (Hdisj c); [eapply list_elem_of_lookup_2, Hn|left]. }
        rewrite lookup_total_insert_ne by congruence. now apply Hacc.
      * rewrite lookup_total_insert_eq. cbn. rewrite Hk.
        apply Z.mod_small. lia.
Qed.

Lemma numberColours_spec (h : Heap) (visited : list ptr) :
  NoDup visited -> Z.of_nat (length visited) <= 65536 ->
  exists h' k',
    numberColours h visited = (h', visited, k') /\
    same_colours h h' /\ indexed h' visited.
Proof.
  intros Hnd Hlen. rewrite numberColours_fold.
  destruct (numberColours_gen visited h [] 0) as (h' & k' & Hfold & Hsame & Hidx).
  exists h', k'. split; [exact Hfold|]. split; [exact Hsame|].
  apply Hidx; [exact Hnd|exact Hlen|reflexivity|].
  intros n a Hn. discriminate.
Qed.

(** *** Swap *)

Lemma Swap_spec (h : Heap) (l : UniqueColourList) (i j : nat) (a b : ptr) :
  l !! i = Some a -> l !! j = Some b ->
  NoDup l -> indexed h l ->
  exists h',
    Swap h l i j = Some (h', <[j := a]> (<[i := b]> l)) /\
    same_colours h h' /\
    indexed h' (<[j := a]> (<[i := b]> l)).
Proof.
  intros Hi Hj Hnd Hidx. unfold Swap. rewrite Hi, Hj. cbn [mbind option_bind].
  eexists. split; [reflexivity|].
  rewrite (Hidx i a Hi), (Hidx j b Hj).
  pose proof (lookup_lt_Some _ _ _ Hi) as Hli.
  pose proof (lookup_lt_Some _ _ _ Hj) as Hlj.
  split.
  - eapply same_colours_trans; apply same_colours_set_index.
  - intros n x Hn.
    destruct (decide (n = j)) as [->|Hnj].
    + rewrite list_lookup_insert_eq in Hn by (rewrite length_insert; exact Hlj).
      injection Hn as <-.
      destruct (decide (b = a)) as [->|Hba].
      * rewrite lookup_total_insert_eq. cbn.
        f_equal. eapply NoDup_lookup; eassumption.
      * rewrite lookup_total_insert_ne by exact Hba.
        rewrite lookup_total_insert_eq. reflexivity.
    + rewrite list_lookup_insert_ne in Hn by congruence.
      destruct (decide (n = i)) as [->|Hni].
      * rewrite list_lookup_insert_eq in Hn by exact Hli. injection Hn as <-.
        rewrite lookup_total_insert_eq. reflexivity.
      * rewrite list_lookup_insert_ne in Hn by congruence.
        assert (x <> a) by (intros ->; apply Hni; eapply NoDup_lookup; eassumption).
        assert (x <> b) by (intros ->; apply Hnj; eapply NoDup_lookup; eassumption).
        rewrite !lookup_total_insert_ne by congruence. now apply Hidx.
Qed.

(** *** Insertion sort, seen on the list alone

    [ins lt x rp] is what the inner loop does to the sorted prefix when
    the element [x] arrives: [rp] is the prefix read from right to left,
    and [x] walks past every element it is less than, up to the first one
    it is not. *)
Fixpoint ins (lt : ptr -> ptr -> bool) (x : ptr) (rp : list ptr) : list ptr :=
  match rp with
  | [] => [x]
  | b :: rp' => if lt x b then b :: ins lt x rp' else x :: rp
  end.

Definition isort (lt : ptr -> ptr -> bool) (l : list ptr) : list ptr :=
  reverse (foldl (fun rp x => ins lt x rp) [] l).

(** The comparison a heap induces on addresses. *)
Definition lessAt (h : Heap) (a b : ptr) : bool :=
  lessColour (h !!! a) (h !!! b).

Lemma length_ins lt x rp : length (ins lt x rp) = S (length rp).
Proof.
  induction rp as [|b rp IH]; [reflexivity|].
  cbn. destruct (lt x b); cbn; [now rewrite IH|reflexivity].
Qed.

Lemma ins_Permutation lt x rp : ins lt x rp ≡ₚ x :: rp.
Proof.
  induction rp as [|b rp IH]; [reflexivity|].
  cbn. destruct (lt x b); [|reflexivity].
  rewrite IH. apply perm_swap.
Qed.

Lemma fold_ins_Permutation lt l : forall rp,
  foldl (fun rp x => ins lt x rp) rp l ≡ₚ rp ++ l.
Proof.
  induction l as [|x l IH]; intros rp; cbn.
  - now rewrite app_nil_r.
  - rewrite IH, ins_Permutation. cbn. apply Permutation_middle.
Qed.

Lemma isort_Permutation lt l : isort lt l ≡ₚ l.
Proof. unfold isort. now rewrite reverse_Permutation, fold_ins_Permutation. Qed.

Lemma swap_adjacent (n : nat) (pre post : list ptr) (a b : ptr) :
  n = length pre ->
  <[n := a]> (<[S n := b]> (pre ++ b :: a :: post)) = pre ++ a :: b :: post.
Proof.
  intros ->. induction pre as [|c pre IH]; [reflexivity|].
  simpl. f_equal. exact IH.
Qed.

(** *** The inner loop *)

Lemma insertLoop_spec (lt : ptr -> ptr -> bool) (rp : list ptr) :
  forall (h : Heap) (x : ptr) (post : list ptr),
    (forall a b, lessAt h a b = lt a b) ->
    NoDup (reverse rp ++ x :: post) ->
    indexed h (reverse rp ++ x :: post) ->
    exists h',
      sort.insertLoop h (reverse rp ++ x :: post) (length rp) =
        Some (h', reverse (ins lt x rp) ++ post) /\
      same_colours h h' /\
      indexed h' (reverse (ins lt x rp) ++ post).
Proof.
  induction rp as [|b rp IH]; intros h x post Hlt Hnd Hidx.
  - exists h. split; [reflexivity|]. split; [apply same_colours_refl|exact Hidx].
  - rewrite reverse_cons, <- app_assoc in Hnd, Hidx |- *.
    cbn [app] in Hnd, Hidx |- *.
    assert (Hb : (reverse rp ++ b :: x :: post) !! length rp = Some b).
    { apply list_lookup_middle. now rewrite length_reverse. }
    assert (Hx : (reverse rp ++ b :: x :: post) !! S (length rp) = Some x).
    { rewrite (app_assoc _ [b] (x :: post)) by reflexivity.
      apply list_lookup_middle. rewrite length_app, length_reverse. cbn. lia. }
    cbn [length sort.insertLoop]. unfold Less. rewrite Hx, Hb.
    cbn [mbind option_bind]. fold (lessAt h x b). rewrite Hlt.
    cbn [ins]. destruct (lt x b) eqn:Hxb.
    + destruct (Swap_spec h _ _ _ x b Hx Hb Hnd Hidx) as (h1 & Hswap & Hs1 & Hi1).
      rewrite Hswap. cbn [mbind option_bind fst snd].
      rewrite (swap_adjacent (length rp) (reverse rp)) in Hi1 |- *
        by (now rewrite length_reverse).
      destruct (IH h1 x (b :: post)) as (h' & Hloop & Hs' & Hi').
      * intros a c. rewrite <- Hlt. apply same_colours_less, Hs1.
      * assert (Hperm : reverse rp ++ x :: b :: post ≡ₚ
                        reverse rp ++ b :: x :: post)
          by apply Permutation_app_head, perm_swap.
        now rewrite Hperm.
      * exact Hi1.
      * exists h'. rewrite reverse_cons, <- app_assoc. cbn [app].
        split; [exact Hloop|]. split; [|exact Hi'].
        eapply same_colours_trans; eassumption.
    + exists h. rewrite !reverse_cons, <- !app_assoc. cbn [app].
      split; [reflexivity|]. split; [apply same_colours_refl|exact Hidx].
Qed.

(** *** The outer loop and [sort.Sort] *)

Definition sortStep (st : option (Heap * UniqueColourList)) (i : nat)
  : option (Heap * UniqueColourList) :=
  st ← st; sort.insertLoop st.1 st.2 i.

Lemma insertionSort_steps (lt : ptr -> ptr -> bool) (rest : list ptr) :
  forall (h : Heap) (rp : list ptr),
    (forall a b, lessAt h a b = lt a b) ->
    NoDup (reverse rp ++ rest) ->
    indexed h (reverse rp ++ rest) ->
    exists h',
      foldl sortStep (Some (h, reverse rp ++ rest))
            (seq (length rp) (length rest)) =
        Some (h', reverse (foldl (fun rp x => ins lt x rp) rp rest)) /\
      same_colours h h' /\
      indexed h' (reverse (foldl (fun rp x => ins lt x rp) rp rest)).
Proof.
  induction rest as [|x rest IH]; intros h rp Hlt Hnd Hidx.
  - exists h. rewrite app_nil_r in *. cbn.
    split; [reflexivity|]. split; [apply same_colours_refl|exact Hidx].
  - cbn [length seq foldl]. unfold sortStep at 2. cbn [mbind option_bind fst snd].
    destruct (insertLoop_spec lt rp h x rest Hlt Hnd Hidx)
      as (h1 & Hloop & Hs1 & Hi1).
    rewrite Hloop.
    destruct (IH h1 (ins lt x rp)) as (h' & Hfold & Hs' & Hi').
    + intros a c. rewrite <- Hlt. apply same_colours_less, Hs1.
    + assert (Hperm : reverse (ins lt x rp) ++ rest ≡ₚ reverse rp ++ x :: rest).
      { rewrite !reverse_Permutation, ins_Permutation.
        cbn. apply Permutation_middle. }
      now rewrite Hperm.
    + exact Hi1.
    + rewrite length_ins in Hfold. exists h'.
      split; [exact Hfold|]. split; [|exact Hi'].
      eapply same_colours_trans; eassumption.
Qed.

(** [sort.Sort] never panics: it returns the list sorted by insertion,
    on a heap that differs in [Index] fields only and still numbers the
    entries by position. *)
Lemma Sort_spec (h : Heap) (l : UniqueColourList) :
  NoDup l -> indexed h l ->
  exists h',
    sort.Sort h l = Some (h', isort (lessAt h) l) /\
    same_colours h h' /\
    indexed h' (isort (lessAt h) l).
Proof.
  intros Hnd Hidx. unfold sort.Sort, sort.insertionSort, Len, isort.
  destruct l as [|a rest].
  - exists h. split; [reflexivity|]. split; [apply same_colours_refl|exact Hidx].
  - cbn [length]. replace (S (length rest) - (0 + 1))%nat with (length rest) by lia.
    exact (insertionSort_steps (lessAt h) rest h [a] (fun _ _ => eq_refl) Hnd Hidx).
Qed.

(** ** float64 comparison *)

Lemma SFcompare_antisym (a b : float64) :
  SFcompare b a = CompOpp <$> SFcompare a b.
Proof.
  destruct a as [sa|sa| |sa ma ea], b as [sb|sb| |sb mb eb];
    try reflexivity; try (destruct sa; reflexivity);
    try (destruct sb; reflexivity); try (destruct sa, sb; reflexivity).
  cbn. destruct sa, sb; try reflexivity;
    rewrite (Z.compare_antisym ea eb);
    destruct (ea ?= eb); cbn; try reflexivity;
    rewrite !Pos.compare_cont_antisym; reflexivity.
Qed.

Lemma ltb_asym (a b : float64) : F64.ltb a b = true -> F64.ltb b a = false.
Proof.
  unfold F64.ltb, SFltb. rewrite (SFcompare_antisym a b).
  now destruct (SFcompare a b) as [[]|].
Qed.

Lemma floatEquals_sym (a b : float64) : floatEquals a b = floatEquals b a.
Proof. unfold floatEquals. now rewrite andb_comm. Qed.

(** [Less] never orders two entries both ways. *)
Lemma lessColour_asym (a b : UniqueColour.t) :
  lessColour a b = true -> lessColour b a = false.
Proof.
  unfold lessColour.
  rewrite (floatEquals_sym (UniqueColour.H b)), (floatEquals_sym (UniqueColour.S b)).
  destruct (floatEquals (UniqueColour.H a) (UniqueColour.H b));
    [destruct (floatEquals (UniqueColour.S a) (UniqueColour.S b))|];
    apply ltb_asym.
Qed.

(** Rounding does not look at the sign. *)
Lemma binary_round_opp (s : bool) (m : positive) (e : Z) :
  binary_round F64.prec F64.emax (negb s) m e =
  SFopp (binary_round F64.prec F64.emax s m e).
Proof.
  unfold binary_round, binary_round_aux.
  destruct (shl_align _ _ _) as [mz ez].
  destruct (shr_fexp _ _ _ _ _) as [mrs' e'].
  destruct (shr_fexp _ _ _ _ _) as [mrs'' e''].
  destruct (shr_m mrs'') as [|p|p]; try reflexivity.
  now destruct (e'' <=? _).
Qed.

(** [b - a] is [-(a - b)], except that both are a zero of some sign when
    they vanish. *)
Lemma sub_swap (a b : float64) :
  (exists s1 s2, F64.sub a b = S754_zero s1 /\ F64.sub b a = S754_zero s2) \/
  F64.sub b a = SFopp (F64.sub a b).
Proof.
  unfold F64.sub.
  destruct a as [sa|sa| |sa ma ea], b as [sb|sb| |sb mb eb];
    try (right; reflexivity);
    try (destruct sa, sb; cbn; eauto; fail).
  cbn [SFsub]. rewrite (Z.min_comm eb ea).
  set (ez := Z.min ea eb).
  set (X := cond_Zopp sa (Z.pos (shl_align ma ea ez).1)).
  set (Y := cond_Zopp sb (Z.pos (shl_align mb eb ez).1)).
  replace (Y - X) with (- (X - Y)) by lia.
  destruct (X - Y) as [|p|p]; cbn [Z.opp binary_normalize].
  - left. eauto.
  - right. apply (binary_round_opp false).
  - right. apply (binary_round_opp true).
Qed.

(** [floatEquals]: the two one-sided tests amount to |a - b| < EPSILON. *)
Lemma floatEquals_abs (a b : float64) :
  floatEquals a b = F64.ltb (F64.abs (F64.sub a b)) EPSILON.
Proof.
  unfold floatEquals.
  destruct (sub_swap a b) as [(s1 & s2 & -> & ->)| ->].
  - reflexivity.
  - destruct (F64.sub a b) as [s|s| |s m e]; try reflexivity.
    + now destruct s.
    + destruct s; cbn [SFopp SFabs negb F64.abs].
      * change (F64.ltb (S754_finite true m e) EPSILON) with true.
        cbn [andb]. now destruct (F64.ltb _ _).
      * change (F64.ltb (S754_finite true m e) EPSILON) with true.
        rewrite andb_true_r. now destruct (F64.ltb _ _).
Qed.

(** A float that is a number is on one side of EPSILON or the other. *)
Lemma leb_EPSILON_not_ltb (x : float64) :
  F64.is_nan x = false -> F64.leb EPSILON x = negb (F64.ltb x EPSILON).
Proof.
  intros Hx. unfold F64.leb, F64.ltb, SFleb, SFltb.
  rewrite (SFcompare_antisym x EPSILON).
  destruct x as [s|s| |s m e]; try discriminate; try (now destruct s).
  destruct (SFcompare (S754_finite s m e) EPSILON) as [[]|] eqn:E;
    try reflexivity.
  now destruct s.
Qed.

(** Rounding a non-negative mantissa never yields NaN. *)
Lemma shr_1_nonneg (mrs : shr_record) : 0 <= shr_m mrs -> 0 <= shr_m (shr_1 mrs).
Proof.
  destruct mrs as [m r s]. cbn. destruct m as [|p|p]; [cbn; lia| |lia].
  intros _. destruct p; cbn; lia.
Qed.

Lemma iter_shr_1_nonneg (p : positive) :
  forall mrs, 0 <= shr_m mrs -> 0 <= shr_m (SpecFloat.iter_pos shr_1 p mrs).
Proof.
  induction p as [p IH|p IH|]; intros mrs H; cbn.
  - apply IH, IH, shr_1_nonneg, H.
  - apply IH, IH, H.
  - apply shr_1_nonneg, H.
Qed.

Lemma shr_fexp_nonneg (m e : Z) (l : location) :
  0 <= m -> 0 <= shr_m (shr_fexp F64.prec F64.emax m e l).1.
Proof.
  intros Hm. unfold shr_fexp, shr.
  assert (H0 : 0 <= shr_m (shr_record_of_loc m l)) by (now destruct l as [|[]]).
  destruct (fexp _ _ _ - e) as [|p|p]; cbn [fst]; auto.
  now apply iter_shr_1_nonneg.
Qed.

Lemma binary_round_aux_not_nan (s : bool) (m e : Z) (l : location) :
  0 <= m -> F64.is_nan (binary_round_aux F64.prec F64.emax s m e l) = false.
Proof.
  intros Hm. unfold binary_round_aux.
  pose proof (shr_fexp_nonneg m e l Hm) as H1.
  destruct (shr_fexp _ _ m e l) as [mrs' e']. cbn [fst] in H1.
  assert (H2 : 0 <= round_nearest_even (shr_m mrs') (loc_of_shr_record mrs')).
  { unfold round_nearest_even.
    destruct (loc_of_shr_record mrs') as [|[]]; try lia.
    destruct (Z.even _); lia. }
  pose proof (shr_fexp_nonneg _ e' loc_Exact H2) as H3.
  destruct (shr_fexp _ _ _ e' loc_Exact) as [mrs'' e'']. cbn [fst] in H3.
  destruct (shr_m mrs'') as [|p|p]; [reflexivity| |lia].
  now destruct (e'' <=? _).
Qed.

Lemma sub_finite_not_nan (a b : float64) :
  F64.is_finite a = true -> F64.is_finite b = true ->
  F64.is_nan (F64.sub a b) = false.
Proof.
  unfold F64.sub.
  destruct a as [sa|sa| |sa ma ea], b as [sb|sb| |sb mb eb];
    try discriminate; intros _ _; try reflexivity.
  - now destruct sa, sb.
  - cbn [SFsub]. destruct (_ - _) as [|p|p]; cbn [binary_normalize];
      [reflexivity| |];
      unfold binary_round; destruct (shl_align _ _ _) as [mz ez];
      now apply binary_round_aux_not_nan.
Qed.

Lemma abs_not_nan (x : float64) :
  F64.is_nan x = false -> F64.is_nan (F64.abs x) = false.
Proof. now destruct x. Qed.

(** *** The comparator in the words of the specification *)

(** |x - y| >= EPSILON *)
Definition apart (x y : float64) : bool :=
  F64.leb EPSILON (F64.abs (F64.sub x y)).

Definition lessBySpec (a b : UniqueColour.t) : bool :=
  if apart (UniqueColour.H a) (UniqueColour.H b) then
    F64.ltb (UniqueColour.H a) (UniqueColour.H b)
  else if apart (UniqueColour.S a) (UniqueColour.S b) then
    F64.ltb (UniqueColour.S a) (UniqueColour.S b)
  else F64.ltb (UniqueColour.V a) (UniqueColour.V b).

Lemma floatEquals_apart (x y : float64) :
  F64.is_finite x = true -> F64.is_finite y = true ->
  floatEquals x y = negb (apart x y).
Proof.
  intros Hx Hy. unfold apart.
  rewrite leb_EPSILON_not_ltb
    by (apply abs_not_nan, sub_finite_not_nan; assumption).
  now rewrite negb_involutive, floatEquals_abs.
Qed.

Definition finiteKeys (a : UniqueColour.t) : Prop :=
  F64.is_finite (UniqueColour.H a) = true /\
  F64.is_finite (UniqueColour.S a) = true.

Lemma lessColour_lessBySpec (a b : UniqueColour.t) :
  finiteKeys a -> finiteKeys b -> lessColour a b = lessBySpec a b.
Proof.
  intros [HaH HaS] [HbH HbS]. unfold lessColour, lessBySpec.
  rewrite !floatEquals_apart by assumption.
  destruct (apart (UniqueColour.H a) _); cbn [negb]; [reflexivity|].
  now destruct (apart (UniqueColour.S a) _).
Qed.

(** ** Insertion sort: order of the result *)

Section InsertionOrder.

Variable lt : ptr -> ptr -> bool.
Hypothesis lt_asym : forall a b, lt a b = true -> lt b a = false.

(** In the prefix read from right to left, an element is never less
    than the one that follows it. *)
Definition descends (u v : ptr) : Prop := lt u v = false.

Lemma ins_Sorted (x : ptr) (rp : list ptr) :
  Sorted descends rp -> Sorted descends (ins lt x rp).
Proof.
  induction rp as [|b rp IH]; intros Hs; cbn.
  - repeat constructor.
  - destruct (lt x b) eqn:Hxb.
    + inversion Hs as [|? ? Hs' Hhd]; subst. constructor; [auto|].
      destruct rp as [|c rp]; cbn.
      * constructor. now apply lt_asym.
      * destruct (lt x c); constructor.
        -- now inversion Hhd.
        -- now apply lt_asym.
    + constructor; [exact Hs|]. constructor. exact Hxb.
Qed.

Lemma fold_ins_Sorted (l : list ptr) : forall rp,
  Sorted descends rp ->
  Sorted descends (foldl (fun rp x => ins lt x rp) rp l).
Proof.
  induction l as [|x l IH]; intros rp Hs; cbn; [exact Hs|].
  apply IH, ins_Sorted, Hs.
Qed.

Lemma Sorted_adjacent (R : relation ptr) (l : list ptr) :
  Sorted R l ->
  forall k u v, l !! k = Some u -> l !! S k = Some v -> R u v.
Proof.
  induction 1 as [|x l Hs IH Hhd]; intros k u v Hu Hv; [discriminate|].
  destruct k as [|k].
  - injection Hu as <-. destruct l as [|y l]; [discriminate|].
    injection Hv as <-. now inversion Hhd.
  - exact (IH k u v Hu Hv).
Qed.

(** The sorted list has no element less than its predecessor. *)
Lemma isort_adjacent (l : list ptr) (i : nat) (a b : ptr) :
  isort lt l !! i = Some a -> isort lt l !! S i = Some b -> lt b a = false.
Proof.
  unfold isort. set (rp := foldl _ [] l).
  intros [Ha Hi]%reverse_lookup_Some [Hb HSi]%reverse_lookup_Some.
  assert (Hs : Sorted descends rp) by (apply fold_ins_Sorted; constructor).
  apply (Sorted_adjacent descends rp Hs (length rp - S (S i)) b a Hb).
  now replace (S (length rp - S (S i))) with (length rp - S i)%nat by lia.
Qed.

(** When [lt] is moreover total and transitive on the elements, there
    is one sorted arrangement, whatever order they arrive in. *)
Variable universe : list ptr.
Hypothesis lt_total : forall a b,
  a ∈ universe -> b ∈ universe -> a <> b -> lt a b = true \/ lt b a = true.
Hypothesis lt_trans : forall a b c,
  a ∈ universe -> b ∈ universe -> c ∈ universe ->
  lt a b = true -> lt b c = true -> lt a c = true.

Definition above (u v : ptr) : Prop :=
  u ∈ universe /\ v ∈ universe /\ lt v u = true.

Local Instance above_trans : Transitive above.
Proof.
  intros u v x (Hu & Hv & Hvu) (_ & Hx & Hxv).
  split; [exact Hu|]. split; [exact Hx|]. now apply (lt_trans x v u).
Qed.

Lemma Sorted_above (rp : list ptr) :
  NoDup rp -> (forall a, a ∈ rp -> a ∈ universe) ->
  Sorted descends rp -> Sorted above rp.
Proof.
  induction rp as [|u rp IH]; intros Hnd Hin Hs; [constructor|].
  apply list.NoDup_cons in Hnd as [Hu Hnd].
  inversion Hs as [|? ? Hs' Hhd]; subst.
  constructor.
  - apply IH; [exact Hnd| |exact Hs'].
    intros a Ha. apply Hin. now right.
  - destruct rp as [|v rp]; constructor.
    inversion Hhd as [|? ? Huv]; subst.
    assert (Hne : u <> v) by (intros ->; apply Hu; left).
    split; [apply Hin; left|]. split; [apply Hin; right; left|].
    destruct (lt_total u v) as [H|H];
      [apply Hin; left|apply Hin; right; left|exact Hne| |exact H].
    unfold descends in Huv. congruence.
Qed.

Lemma isort_unique (l1 l2 : list ptr) :
  NoDup l1 -> l1 ≡ₚ l2 -> (forall a, a ∈ l1 -> a ∈ universe) ->
  isort lt l1 = isort lt l2.
Proof.
  intros Hnd Hperm Hin. unfold isort. f_equal.
  set (rp1 := foldl _ [] l1). set (rp2 := foldl _ [] l2).
  assert (H1 : rp1 ≡ₚ l1) by apply (fold_ins_Permutation lt l1 []).
  assert (H2 : rp2 ≡ₚ l2) by apply (fold_ins_Permutation lt l2 []).
  apply (Sorted_unique_strong above).
  - intros x1 x2 _ _ (_ & _ & H21) (_ & _ & H12).
    apply lt_asym in H21. congruence.
  - apply Sorted_above; [now rewrite H1| |apply fold_ins_Sorted; constructor].
    intros a Ha. apply Hin. now rewrite <- H1.
  - apply Sorted_above; [now rewrite H2, <- Hperm|
                         |apply fold_ins_Sorted; constructor].
    intros a Ha. apply Hin. now rewrite Hperm, <- H2.
  - now rewrite H1, H2.
Qed.

End InsertionOrder.

(** ** The sorted catalogue *)

Lemma indexed_NoDup (h : Heap) (l : UniqueColourList) : indexed h l -> NoDup l.
Proof.
  intros Hidx. apply NoDup_alt. intros i j a Hi Hj.
  apply Nat2Z.inj. now rewrite <- (Hidx i a Hi), <- (Hidx j a Hj).
Qed.

Lemma Swap_indexed (h h' : Heap) (l l' : UniqueColourList) (i j : nat) :
  indexed h l -> Swap h l i j = Some (h', l') -> indexed h' l'.
Proof.
  intros Hidx Hswap.
  destruct (l !! i) as [a|] eqn:Hi; [|unfold Swap in Hswap; now rewrite Hi in Hswap].
  destruct (l !! j) as [b|] eqn:Hj;
    [|unfold Swap in Hswap; now rewrite Hi, Hj in Hswap].
  destruct (Swap_spec h l i j a b Hi Hj (indexed_NoDup h l Hidx) Hidx)
    as (h'' & Heq & _ & Hidx').
  rewrite Heq in Hswap. now injection Hswap as <- <-.
Qed.

Lemma ins_ext (lt1 lt2 : ptr -> ptr -> bool) (x : ptr) (rp : list ptr) :
  (forall a b, lt1 a b = lt2 a b) -> ins lt1 x rp = ins lt2 x rp.
Proof.
  intros Hext. induction rp as [|b rp IH]; [reflexivity|].
  cbn. rewrite Hext, IH. reflexivity.
Qed.

Lemma isort_ext (lt1 lt2 : ptr -> ptr -> bool) (l : list ptr) :
  (forall a b, lt1 a b = lt2 a b) -> isort lt1 l = isort lt2 l.
Proof.
  intros Hext. unfold isort. f_equal. generalize (@nil ptr).
  induction l as [|x l IH]; intros rp; [reflexivity|].
  cbn. rewrite (ins_ext lt1 lt2 x rp Hext). apply IH.
Qed.

(** The provisional numbering followed by the sort, on any heap and any
    order of visit. *)
Definition indexThenSort (h : Heap) (visited : list ptr)
  : option (Heap * UniqueColourList) :=
  let '(h', colourList, _) := numberColours h visited in
  sort.Sort h' colourList.

Lemma sortedCatalogue_indexThenSort (w : World) (cat : Catalogue) :
  sortedCatalogue w cat =
  indexThenSort (heap cat) (mapRange w (map_to_list (colourMap cat))).*2.
Proof. reflexivity. Qed.

(** The colours of a list of entries, in order. *)
Definition paletteOf (st : Heap * UniqueColourList) : list color.RGBA :=
  (fun c => UniqueColour.RGBA (st.1 !!! c)) <$> st.2.

Lemma indexThenSort_spec (h : Heap) (visited : list ptr) :
  NoDup visited -> Z.of_nat (length visited) <= 65536 ->
  exists h',
    indexThenSort h visited = Some (h', isort (lessAt h) visited) /\
    same_colours h h' /\
    indexed h' (isort (lessAt h) visited) /\
    sort.IsSorted h' (isort (lessAt h) visited).
Proof.
  intros Hnd Hlen. unfold indexThenSort.
  destruct (numberColours_spec h visited Hnd Hlen) as (h1 & k & -> & Hs1 & Hi1).
  destruct (Sort_spec h1 visited Hnd Hi1) as (h2 & Hsort & Hs2 & Hi2).
  assert (Hext : forall a b, lessAt h1 a b = lessAt h a b)
    by (intros a b; apply same_colours_less, Hs1).
  rewrite (isort_ext _ _ visited Hext) in Hsort, Hi2.
  exists h2. split; [exact Hsort|].
  assert (Hs : same_colours h h2) by (eapply same_colours_trans; eassumption).
  split; [exact Hs|]. split; [exact Hi2|].
  intros i a b Ha Hb.
  rewrite (same_colours_less h h2 b a Hs).
  apply (isort_adjacent (lessAt h)) with (l := visited) (i := i); [|assumption..].
  intros x y. apply lessColour_asym.
Qed.

Lemma sortedCatalogue_spec (w : World) (cat : Catalogue) (seen : list color.RGBA) :
  catalogue_of w cat seen -> range_visits_all w ->
  Z.of_nat (size (colourMap cat)) <= 65536 ->
  exists h l,
    sortedCatalogue w cat = Some (h, l) /\
    same_colours (heap cat) h /\
    indexed h l /\
    l ≡ₚ (map_to_list (colourMap cat)).*2 /\
    sort.IsSorted h l.
Proof.
  intros Hcat Hrange Hsize. rewrite sortedCatalogue_indexThenSort.
  set (visited := (mapRange w (map_to_list (colourMap cat))).*2).
  assert (Hperm : visited ≡ₚ (map_to_list (colourMap cat)).*2)
    by (unfold visited; now rewrite (Hrange _)).
  assert (Hnd : NoDup visited)
    by (rewrite Hperm; exact (catalogue_pointers_NoDup w cat seen Hcat)).
  assert (Hlen : Z.of_nat (length visited) <= 65536).
  { rewrite Hperm, length_fmap, length_map_to_list. exact Hsize. }
  destruct (indexThenSort_spec (heap cat) visited Hnd Hlen)
    as (h & Hrun & Hs & Hi & Hsorted).
  exists h, (isort (lessAt (heap cat)) visited).
  split; [exact Hrun|]. split; [exact Hs|]. split; [exact Hi|].
  split; [|exact Hsorted]. now rewrite isort_Permutation.
Qed.

(** C8.  The provisional numbering gives the entry at position [i] the
    index [i]; every [Swap] keeps it so; hence once [GenerateFromImage]
    has sorted the list, the entry at position [n] has [Index = n], and
    so has every entry reached through the colour map, which holds the
    same pointers. *)
Theorem index_follows_position :
  (forall h visited,
     NoDup visited -> Z.of_nat (length visited) <= 65536 ->
     indexed (numberColours h visited).1.1 (numberColours h visited).1.2) /\
  (forall h l i j h' l',
     indexed h l -> Swap h l i j = Some (h', l') -> indexed h' l') /\
  (forall w img,
     range_visits_all w ->
     Z.of_nat (length (distinctColours img)) <= 65536 ->
     exists h l,
       sortedCatalogue w (scanImage w img) = Some (h, l) /\
       (forall n a, l !! n = Some a ->
                    UniqueColour.Index (h !!! a) = Z.of_nat n) /\
       (forall p a, colourMap (scanImage w img) !! p = Some a ->
                    exists n, l !! n = Some a /\
                              UniqueColour.RGBA (h !!! a) = p /\
                              UniqueColour.Index (h !!! a) = Z.of_nat n)).
Proof.
  split; [|split].
  - intros h visited Hnd Hlen.
    destruct (numberColours_spec h visited Hnd Hlen) as (h' & k & -> & _ & Hi).
    exact Hi.
  - intros h l i j h' l'. apply Swap_indexed.
  - intros w img Hrange Hsize. rewrite <- (scanImage_size w img) in Hsize.
    pose proof (scanImage_ok w img) as Hcat.
    destruct (sortedCatalogue_spec w _ _ Hcat Hrange Hsize)
      as (h & l & Hrun & Hs & Hi & Hperm & _).
    exists h, l. split; [exact Hrun|]. split; [exact Hi|].
    intros p a Hp.
    assert (Ha : a ∈ l).
    { rewrite Hperm. apply list_elem_of_fmap. exists (p, a).
      split; [reflexivity|]. now apply elem_of_map_to_list. }
    apply list_elem_of_lookup in Ha as [n Hn].
    exists n. split; [exact Hn|]. split; [|now apply Hi].
    rewrite (same_colours_RGBA _ _ a Hs).
    eapply catalogue_key_of_entry; eassumption.
Qed.

Lemma index_follows_position_witness :
  indexed (numberColours ∅ [2; 0; 1]%nat).1.1 (numberColours ∅ [2; 0; 1]%nat).1.2 /\
  exists h l,
    sortedCatalogue quietWorld
      (scanImage quietWorld (onePixel (color.OfRGBA64 0 0 0 0))) = Some (h, l) /\
    (forall n a, l !! n = Some a -> UniqueColour.Index (h !!! a) = Z.of_nat n).
Proof.
  destruct index_follows_position as (Hnumber & _ & Hsorted).
  split.
  - apply Hnumber; [|simpl; lia].
    apply (bool_decide_unpack _). vm_compute. exact I.
  - destruct (Hsorted quietWorld (onePixel (color.OfRGBA64 0 0 0 0)))
      as (h & l & Hrun & Hidx & _).
    + intros l. reflexivity.
    + vm_compute. discriminate.
    + exists h, l. split; [exact Hrun|exact Hidx].
Defined.

(** ** Capacity *)

(** Short of the capacity error, and with the file system and the
    encoder willing, the function returns a palette: nothing panics. *)
Lemma GenerateFromImage_succeeds (w : World) (img : image.Image)
    (outImagePath outPaletteTexture : string) :
  range_visits_all w ->
  Z.of_nat (length (distinctColours img)) <= 65536 ->
  openFails w outImagePath = false -> encodeFails w outImagePath = false ->
  openFails w outPaletteTexture = false ->
  encodeFails w outPaletteTexture = false ->
  exists palette evs,
    GenerateFromImage w img outImagePath outPaletteTexture
      = Some (inr palette, evs).
Proof.
  intros Hrange Hsize Ho1 He1 Ho2 He2. unfold GenerateFromImage.
  rewrite <- (scanImage_size w img) in Hsize.
  destruct (Z.ltb_spec 65536 (Z.of_nat (size (colourMap (scanImage w img)))))
    as [Hgt|_]; [lia|].
  destruct (sortedCatalogue_spec w _ _ (scanImage_ok w img) Hrange Hsize)
    as (h & l & -> & _).
  cbn [mbind option_bind]. rewrite Ho1, He1.
  destruct (0 <? String.length outPaletteTexture)%nat; [|eauto].
  destruct (getPaletteImageDimensions _) as [width height].
  destruct (layPalette h l width height) as [outPalette palette].
  rewrite Ho2, He2. eauto.
Qed.

(** C4.  [GenerateFromImage] fails with the capacity error exactly when
    the image has more than 65536 distinct canonical colours, and then it
    has written nothing and returns no palette; with 65536 or fewer (and
    no failure of the file system or the encoder) it returns a palette. *)
Theorem capacity_error_iff_too_many_colours
    (w : World) (img : image.Image) (outImagePath outPaletteTexture : string) :
  (returned (GenerateFromImage w img outImagePath outPaletteTexture)
     = Some (inl ErrTooManyColours)
   <-> 65536 < Z.of_nat (length (distinctColours img))) /\
  (65536 < Z.of_nat (length (distinctColours img)) ->
   GenerateFromImage w img outImagePath outPaletteTexture
     = Some (inl ErrTooManyColours, [])) /\
  (Z.of_nat (length (distinctColours img)) <= 65536 ->
   range_visits_all w ->
   openFails w outImagePath = false -> encodeFails w outImagePath = false ->
   openFails w outPaletteTexture = false ->
   encodeFails w outPaletteTexture = false ->
   exists palette evs,
     GenerateFromImage w img outImagePath outPaletteTexture
       = Some (inr palette, evs)).
Proof.
  split; [|split].
  - unfold GenerateFromImage. rewrite scanImage_size.
    destruct (Z.ltb_spec 65536 (Z.of_nat (length (distinctColours img))))
      as [Hgt|Hle].
    + split; [intros _; lia|intros _; reflexivity].
    + split; [|lia]. intros Hret. exfalso. revert Hret.
      destruct (sortedCatalogue w (scanImage w img)) as [[h colourList]|];
        [|discriminate]. cbn [mbind option_bind].
      destruct (openFails w outImagePath); [discriminate|].
      destruct (encodeFails w outImagePath); [discriminate|].
      destruct (0 <? String.length outPaletteTexture)%nat; [|discriminate].
      destruct (getPaletteImageDimensions _) as [width height].
      destruct (layPalette h colourList width height) as [outPalette palette].
      destruct (openFails w outPaletteTexture); [discriminate|].
      destruct (encodeFails w outPaletteTexture); discriminate.
  - intros Hgt. unfold GenerateFromImage. rewrite scanImage_size.
    destruct (Z.ltb_spec 65536 (Z.of_nat (length (distinctColours img))));
      [reflexivity|lia].
  - intros Hsize Hrange. now apply GenerateFromImage_succeeds.
Qed.

Lemma capacity_error_iff_too_many_colours_witness :
  exists palette evs,
    GenerateFromImage quietWorld
      (onePixel (color.OfNRGBA (color.mkNRGBA 200 100 50 255)))
      "sprite.png" "palette.png" = Some (inr palette, evs).
Proof.
  destruct (capacity_error_iff_too_many_colours quietWorld
              (onePixel (color.OfNRGBA (color.mkNRGBA 200 100 50 255)))
              "sprite.png" "palette.png") as (_ & _ & Hsucceeds).
  apply Hsucceeds; try reflexivity.
  - vm_compute. discriminate.
  - intros l. reflexivity.
Defined.

(** ** The palette returned *)

Definition paletteStep (h : Heap) (width : Z)
    (st : image.RGBA * list color.RGBA * Z * Z) (c : ptr)
  : image.RGBA * list color.RGBA * Z * Z :=
  let '(outPalette, palette, x, y) := st in
  let rgba := UniqueColour.RGBA (h !!! c) in
  let outPalette := image.SetRGBA outPalette x y rgba in
  let palette := palette ++ [rgba] in
  let x := x + 1 in
  if x =? width then (outPalette, palette, 0, y + 1)
  else (outPalette, palette, x, y).

Lemma paletteStep_fold (h : Heap) (width : Z) (l : UniqueColourList) :
  forall st,
    (foldl (paletteStep h width) st l).1.1.2 =
    st.1.1.2 ++ paletteOf (h, l).
Proof.
  induction l as [|c l IH]; intros [[[outPalette palette] x] y]; cbn.
  - now rewrite app_nil_r.
  - unfold paletteOf in IH. cbn in IH.
    destruct (x + 1 =? width); rewrite IH; cbn; now rewrite <- app_assoc.
Qed.

Lemma layPalette_palette (h : Heap) (l : UniqueColourList) (width height : Z) :
  (layPalette h l width height).2 = paletteOf (h, l).
Proof.
  unfold layPalette. fold (paletteStep h width).
  pose proof (paletteStep_fold h width l
                (image.NewRGBA (image.Rect 0 0 width height), [], 0, 0)) as H.
  destruct (foldl _ _ l) as [[[outPalette palette] x] y]. exact H.
Qed.

(** What [GenerateFromImage] returns when it returns a palette: nothing
    without a palette path, the colours of the sorted list with one. *)
Lemma GenerateFromImage_returns (w : World) (img : image.Image)
    (outImagePath outPaletteTexture : string) palette evs :
  GenerateFromImage w img outImagePath outPaletteTexture = Some (inr palette, evs) ->
  Z.of_nat (size (colourMap (scanImage w img))) <= 65536 /\
  exists h l,
    sortedCatalogue w (scanImage w img) = Some (h, l) /\
    palette = if (0 <? String.length outPaletteTexture)%nat
              then paletteOf (h, l) else [].
Proof.
  unfold GenerateFromImage.
  destruct (Z.ltb_spec 65536 (Z.of_nat (size (colourMap (scanImage w img)))))
    as [Hgt|Hle]; [discriminate|].
  intros Hrun. split; [exact Hle|].
  destruct (sortedCatalogue w (scanImage w img)) as [[h l]|]; [|discriminate].
  exists h, l. split; [reflexivity|]. cbn [mbind option_bind] in Hrun.
  destruct (openFails w outImagePath); [discriminate|].
  destruct (encodeFails w outImagePath); [discriminate|].
  destruct (0 <? String.length outPaletteTexture)%nat; [|now inversion Hrun].
  destruct (getPaletteImageDimensions _) as [width height].
  pose proof (layPalette_palette h l width height) as Hpal.
  destruct (layPalette h l width height) as [outPalette palette'].
  destruct (openFails w outPaletteTexture); [discriminate|].
  destruct (encodeFails w outPaletteTexture); [discriminate|].
  cbn in Hpal. inversion Hrun; subst. reflexivity.
Qed.

(** Without a palette path the palette returned is empty, whatever the
    image. *)
Lemma GenerateFromImage_no_texture_path (w : World) (img : image.Image)
    (outImagePath : string) palette evs :
  GenerateFromImage w img outImagePath EmptyString = Some (inr palette, evs) ->
  palette = [].
Proof.
  intros Hrun. apply GenerateFromImage_returns in Hrun as (_ & h & l & _ & ->).
  reflexivity.
Qed.

(** With one, it has one colour per distinct canonical colour. *)
Lemma GenerateFromImage_palette_length (w : World) (img : image.Image)
    (outImagePath outPaletteTexture : string) palette evs :
  range_visits_all w -> outPaletteTexture <> EmptyString ->
  GenerateFromImage w img outImagePath outPaletteTexture = Some (inr palette, evs) ->
  length palette = length (distinctColours img).
Proof.
  intros Hrange Hpath Hrun.
  apply GenerateFromImage_returns in Hrun as (Hsize & h & l & Hsorted & ->).
  destruct outPaletteTexture as [|c s]; [congruence|]. cbn [String.length Nat.ltb Nat.leb].
  destruct (sortedCatalogue_spec w _ _ (scanImage_ok w img) Hrange Hsize)
    as (h' & l' & Hrun' & _ & _ & Hperm & _).
  rewrite Hsorted in Hrun'. injection Hrun' as <- <-.
  unfold paletteOf. cbn [fst snd].
  rewrite length_fmap, Hperm, length_fmap, length_map_to_list.
  apply scanImage_size.
Qed.

Lemma GenerateFromImage_palette_length_witness :
  length [color.mkRGBA 200 100 50 255] =
  length (distinctColours (onePixel (color.OfNRGBA (color.mkNRGBA 200 100 50 255)))).
Proof.
  apply (GenerateFromImage_palette_length quietWorld
           (onePixel (color.OfNRGBA (color.mkNRGBA 200 100 50 255)))
           "sprite.png" "palette.png" _
           (default [] (snd <$> GenerateFromImage quietWorld
              (onePixel (color.OfNRGBA (color.mkNRGBA 200 100 50 255)))
              "sprite.png" "palette.png"))).
  - intros l. reflexivity.
  - discriminate.
  - vm_compute. reflexivity.
Defined.

(** The palette is in order when no colour is less, as an entry of the
    catalogue, than the colour before it. *)
Definition paletteSorted (w : World) (palette : list color.RGBA) : Prop :=
  forall i c1 c2,
    palette !! i = Some c1 -> palette !! S i = Some c2 ->
    lessColour (entryOf w c2) (entryOf w c1) = false.

Lemma sorted_entry (w : World) (cat : Catalogue) seen (h : Heap)
    (l : UniqueColourList) (a : ptr) :
  catalogue_of w cat seen -> same_colours (heap cat) h ->
  l ≡ₚ (map_to_list (colourMap cat)).*2 -> a ∈ l ->
  UniqueColour.withIndex (h !!! a) 0 =
  UniqueColour.withIndex (entryOf w (UniqueColour.RGBA (h !!! a))) 0.
Proof.
  intros Hcat Hs Hperm Ha. rewrite Hperm in Ha.
  apply list_elem_of_fmap in Ha as ([p a'] & -> & Hpa). cbn.
  apply elem_of_map_to_list in Hpa.
  destruct (cat_entry w cat seen Hcat p a' Hpa) as [_ He].
  rewrite (same_colours_RGBA _ _ a' Hs), (Hs a'), He, entryOf_RGBA.
  reflexivity.
Qed.

Lemma lessColour_withIndex (a b a' b' : UniqueColour.t) :
  UniqueColour.withIndex a 0 = UniqueColour.withIndex a' 0 ->
  UniqueColour.withIndex b 0 = UniqueColour.withIndex b' 0 ->
  lessColour a b = lessColour a' b'.
Proof.
  intros Ha Hb.
  change (lessColour (UniqueColour.withIndex a 0) (UniqueColour.withIndex b 0) =
          lessColour (UniqueColour.withIndex a' 0) (UniqueColour.withIndex b' 0)).
  now rewrite Ha, Hb.
Qed.

(** C5.  [Less] orders [a] before [b] by hue when the hues are at least
    EPSILON apart, else by saturation when those are, else by value with
    the plain [<]; and the palette [GenerateFromImage] returns is sorted
    under it: no colour is less than its predecessor. *)
Theorem comparator_and_palette_order :
  (forall a b, finiteKeys a -> finiteKeys b ->
     lessColour a b =
       if apart (UniqueColour.H a) (UniqueColour.H b) then
         F64.ltb (UniqueColour.H a) (UniqueColour.H b)
       else if apart (UniqueColour.S a) (UniqueColour.S b) then
         F64.ltb (UniqueColour.S a) (UniqueColour.S b)
       else F64.ltb (UniqueColour.V a) (UniqueColour.V b)) /\
  (forall w img outImagePath outPaletteTexture palette evs,
     range_visits_all w ->
     GenerateFromImage w img outImagePath outPaletteTexture
       = Some (inr palette, evs) ->
     paletteSorted w palette).
Proof.
  split; [exact lessColour_lessBySpec|].
  intros w img outImagePath outPaletteTexture palette evs Hrange Hrun.
  apply GenerateFromImage_returns in Hrun as (Hsize & h & l & Hsorted & ->).
  destruct (0 <? String.length outPaletteTexture)%nat;
    [|intros i c1 c2 Hc1; discriminate].
  pose proof (scanImage_ok w img) as Hcat.
  destruct (sortedCatalogue_spec w _ _ Hcat Hrange Hsize)
    as (h' & l' & Hrun' & Hs & _ & Hperm & Horder).
  rewrite Hsorted in Hrun'. injection Hrun' as <- <-.
  intros i c1 c2 Hc1 Hc2. unfold paletteOf in Hc1, Hc2. cbn [fst snd] in Hc1, Hc2.
  apply list_lookup_fmap_Some in Hc1 as (a & -> & Ha).
  apply list_lookup_fmap_Some in Hc2 as (b & -> & Hb).
  rewrite <- (Horder i a b Ha Hb).
  symmetry. apply lessColour_withIndex.
  - eapply sorted_entry; eauto. eapply list_elem_of_lookup_2, Hb.
  - eapply sorted_entry; eauto. eapply list_elem_of_lookup_2, Ha.
Qed.

Lemma comparator_and_palette_order_witness :
  lessColour (entryOf quietWorld (color.mkRGBA 255 0 0 255))
             (entryOf quietWorld (color.mkRGBA 0 255 0 255)) =
    F64.ltb (UniqueColour.H (entryOf quietWorld (color.mkRGBA 255 0 0 255)))
            (UniqueColour.H (entryOf quietWorld (color.mkRGBA 0 255 0 255))) /\
  paletteSorted quietWorld
    [color.mkRGBA 0 0 0 255; color.mkRGBA 255 0 0 255; color.mkRGBA 0 128 0 255].
Proof.
  destruct comparator_and_palette_order as (Hless & Hsorted).
  split.
  - apply (Hless (entryOf quietWorld (color.mkRGBA 255 0 0 255))
                 (entryOf quietWorld (color.mkRGBA 0 255 0 255)));
      split; reflexivity.
  - apply (Hsorted quietWorld
             (image.mkImage (image.mkRect 0 0 3 1)
                (fun x _ => if x =? 0 then color.OfNRGBA (color.mkNRGBA 255 0 0 255)
                            else if x =? 1 then color.OfNRGBA (color.mkNRGBA 0 255 0 128)
                            else color.OfNRGBA (color.mkNRGBA 0 0 255 0)))
             "sprite.png"%string "palette.png"%string _
             (default [] (snd <$> GenerateFromImage quietWorld
                (image.mkImage (image.mkRect 0 0 3 1)
                   (fun x _ => if x =? 0 then color.OfNRGBA (color.mkNRGBA 255 0 0 255)
                               else if x =? 1 then color.OfNRGBA (color.mkNRGBA 0 255 0 128)
                               else color.OfNRGBA (color.mkNRGBA 0 0 255 0)))
                "sprite.png"%string "palette.png"%string))).
    + intros l. reflexivity.
    + vm_compute. reflexivity.
Defined.

(** ** Order of enumeration *)

(** [Less] is a strict total order on the entries at the addresses [l]:
    of two different entries one is less than the other, and it is
    transitive among them. *)
Definition strictlyTotallyOrdered (h : Heap) (l : list ptr) : Prop :=
  (forall a b, a ∈ l -> b ∈ l -> a <> b ->
     lessAt h a b = true \/ lessAt h b a = true) /\
  (forall a b c, a ∈ l -> b ∈ l -> c ∈ l ->
     lessAt h a b = true -> lessAt h b c = true -> lessAt h a c = true).

Lemma indexThenSort_unique (h : Heap) (visited1 visited2 : list ptr) :
  NoDup visited1 -> visited1 ≡ₚ visited2 ->
  Z.of_nat (length visited1) <= 65536 ->
  strictlyTotallyOrdered h visited1 ->
  exists st1 st2,
    indexThenSort h visited1 = Some st1 /\
    indexThenSort h visited2 = Some st2 /\
    st1.2 = st2.2 /\
    paletteOf st1 = paletteOf st2.
Proof.
  intros Hnd Hperm Hlen [Htotal Htrans].
  assert (Hnd2 : NoDup visited2) by now rewrite <- Hperm.
  assert (Hlen2 : Z.of_nat (length visited2) <= 65536) by now rewrite <- Hperm.
  destruct (indexThenSort_spec h visited1 Hnd Hlen) as (h1 & Hrun1 & Hs1 & _).
  destruct (indexThenSort_spec h visited2 Hnd2 Hlen2) as (h2 & Hrun2 & Hs2 & _).
  assert (Hsame : isort (lessAt h) visited1 = isort (lessAt h) visited2).
  { apply (isort_unique (lessAt h)) with (universe := visited1); auto.
    intros a b. apply lessColour_asym. }
  eexists _, _. split; [exact Hrun1|]. split; [exact Hrun2|].
  split; [exact Hsame|].
  unfold paletteOf. cbn [fst snd]. rewrite <- Hsame.
  apply list_fmap_ext. intros i a _.
  now rewrite (same_colours_RGBA _ _ a Hs1), (same_colours_RGBA _ _ a Hs2).
Qed.

(** Given the same entries in two orders of enumeration, the numbering
    and sorting step ends with the same ordered palette whenever [Less]
    is a strict total order on those entries. *)
Lemma palette_independent_of_enumeration
    (h : Heap) (visited1 visited2 : list ptr) :
  NoDup visited1 -> visited1 ≡ₚ visited2 ->
  Z.of_nat (length visited1) <= 65536 ->
  strictlyTotallyOrdered h visited1 ->
  exists st1 st2,
    indexThenSort h visited1 = Some st1 /\
    indexThenSort h visited2 = Some st2 /\
    st1.2 = st2.2 /\
    paletteOf st1 = paletteOf st2.
Proof. exact (indexThenSort_unique h visited1 visited2). Qed.

(** Three entries with hues 0, 120 and 240 degrees. *)
Definition primariesHeap : Heap :=
  <[0%nat := entryOf quietWorld (color.mkRGBA 255 0 0 255)]>
  (<[1%nat := entryOf quietWorld (color.mkRGBA 0 255 0 255)]>
  (<[2%nat := entryOf quietWorld (color.mkRGBA 0 0 255 255)]> ∅)).

(** Membership in a list written out, one case per element. *)
Ltac each_member H :=
  repeat (apply elem_of_cons in H as [->|H]);
  try (now apply elem_of_nil in H).

Lemma primaries_ordered : strictlyTotallyOrdered primariesHeap [2; 0; 1]%nat.
Proof.
  split.
  - intros a b Ha Hb Hne.
    each_member Ha; each_member Hb; try congruence; vm_compute; auto.
  - intros a b c Ha Hb Hc.
    each_member Ha; each_member Hb; each_member Hc; vm_compute; congruence.
Defined.

Lemma palette_independent_of_enumeration_witness :
  exists st1 st2,
    indexThenSort primariesHeap [2; 0; 1]%nat = Some st1 /\
    indexThenSort primariesHeap [1; 2; 0]%nat = Some st2 /\
    st1.2 = st2.2 /\
    paletteOf st1 = paletteOf st2.
Proof.
  apply (palette_independent_of_enumeration primariesHeap).
  - apply (bool_decide_unpack _). vm_compute. exact I.
  - apply (bool_decide_unpack _). vm_compute. exact I.
  - simpl. lia.
  - exact primaries_ordered.
Defined.

(** The same, for [GenerateFromImage] itself: what it returns does not
    depend on the order in which [range] visits the colour map, as long
    as [Less] is a strict total order on the catalogue's entries. *)
Definition withRange (w : World)
    (r : list (color.RGBA * ptr) -> list (color.RGBA * ptr)) : World :=
  mkWorld (Hsv w) r (openFails w) (encodeFails w).

Lemma strictlyTotallyOrdered_Permutation (h : Heap) (l1 l2 : list ptr) :
  l1 ≡ₚ l2 -> strictlyTotallyOrdered h l1 -> strictlyTotallyOrdered h l2.
Proof.
  intros Hperm [Htotal Htrans]. split.
  - intros a b Ha Hb. rewrite <- Hperm in Ha, Hb. now apply Htotal.
  - intros a b c Ha Hb Hc. rewrite <- Hperm in Ha, Hb, Hc. now apply Htrans.
Qed.

Lemma GenerateFromImage_independent_of_range (w : World)
    (r1 r2 : list (color.RGBA * ptr) -> list (color.RGBA * ptr))
    (img : image.Image) (outImagePath outPaletteTexture : string) :
  (forall l, r1 l ≡ₚ l) -> (forall l, r2 l ≡ₚ l) ->
  strictlyTotallyOrdered (heap (scanImage w img))
    (map_to_list (colourMap (scanImage w img))).*2 ->
  returned (GenerateFromImage (withRange w r1) img outImagePath outPaletteTexture) =
  returned (GenerateFromImage (withRange w r2) img outImagePath outPaletteTexture).
Proof.
  intros Hr1 Hr2 Hord. unfold GenerateFromImage.
  change (scanImage (withRange w r1) img) with (scanImage w img).
  change (scanImage (withRange w r2) img) with (scanImage w img).
  set (cat := scanImage w img) in *.
  destruct (Z.ltb_spec 65536 (Z.of_nat (size (colourMap cat)))) as [Hgt|Hle];
    [reflexivity|].
  rewrite !sortedCatalogue_indexThenSort. cbn [mapRange withRange].
  set (entries := map_to_list (colourMap cat)) in *.
  assert (Hp1 : (r1 entries).*2 ≡ₚ entries.*2) by now rewrite Hr1.
  assert (Hp2 : (r2 entries).*2 ≡ₚ entries.*2) by now rewrite Hr2.
  assert (Hnd : NoDup entries.*2)
    by exact (catalogue_pointers_NoDup w cat _ (scanImage_ok w img)).
  destruct (indexThenSort_unique (heap cat) (r1 entries).*2 (r2 entries).*2)
    as ([h1 l1] & [h2 l2] & -> & -> & Hl & Hpal).
  - now rewrite Hp1.
  - now rewrite Hp1, Hp2.
  - rewrite Hp1, length_fmap. unfold entries. now rewrite length_map_to_list.
  - eapply strictlyTotallyOrdered_Permutation; [symmetry; exact Hp1|exact Hord].
  - cbn [fst snd] in Hl. subst l2. cbn [mbind option_bind openFails encodeFails withRange].
    destruct (openFails w outImagePath); [reflexivity|].
    destruct (encodeFails w outImagePath); [reflexivity|].
    destruct (0 <? String.length outPaletteTexture)%nat; [|reflexivity].
    destruct (getPaletteImageDimensions _) as [width height].
    pose proof (layPalette_palette h1 l1 width height) as H1.
    pose proof (layPalette_palette h2 l1 width height) as H2.
    destruct (layPalette h1 l1 width height) as [out1 pal1].
    destruct (layPalette h2 l1 width height) as [out2 pal2].
    cbn [snd] in H1, H2. subst pal1 pal2. rewrite Hpal.
    destruct (openFails w outPaletteTexture); [reflexivity|].
    destruct (encodeFails w outPaletteTexture); reflexivity.
Qed.

(** * Further properties of the package *)

(** ** floatEquals and Less on every float *)

Lemma sub_self (a : float64) :
  F64.sub a a = if F64.is_finite a then S754_zero false else S754_nan.
Proof.
  unfold F64.sub. destruct a as [s|s| |s m e]; try reflexivity;
    try (now destruct s).
  cbn [SFsub F64.is_finite]. cbv zeta. now rewrite Z.sub_diag.
Qed.

(** X3.  [floatEquals a b] is the test |a - b| < EPSILON in float64, whatever
    the two floats; it is symmetric, and a float equals itself exactly
    when it is finite: an infinity or a NaN is not [floatEquals] to
    itself. *)
Theorem floatEquals_closeness :
  (forall a b, floatEquals a b = F64.ltb (F64.abs (F64.sub a b)) EPSILON) /\
  (forall a b, floatEquals a b = floatEquals b a) /\
  (forall a, floatEquals a a = F64.is_finite a).
Proof.
  split; [exact floatEquals_abs|]. split; [exact floatEquals_sym|].
  intros a. rewrite floatEquals_abs, sub_self. now destruct (F64.is_finite a).
Qed.

(** Three entries whose hues are 0, 2^-27 and 2^-26 (the middle one
    within EPSILON of both others, which are more than EPSILON apart) and
    whose saturations run the other way. *)
Definition hueLow : UniqueColour.t :=
  UniqueColour.mk (color.mkRGBA 1 0 0 255)
    (S754_zero false) (S754_finite false 4503599627370496 (-52))
    (S754_zero false) 0.
Definition hueMid : UniqueColour.t :=
  UniqueColour.mk (color.mkRGBA 2 0 0 255)
    (S754_finite false 4503599627370496 (-79))
    (S754_finite false 4503599627370496 (-53)) (S754_zero false) 0.
Definition hueHigh : UniqueColour.t :=
  UniqueColour.mk (color.mkRGBA 3 0 0 255)
    (S754_finite false 4503599627370496 (-78))
    (S754_finite false 4503599627370496 (-54)) (S754_zero false) 0.

(** X4.  [Less] is irreflexive and asymmetric on all entries, NaN keys
    included, and so is the method on any list; but it is not
    transitive: the tolerance on hue lets three entries form a cycle. *)
Theorem Less_strict_not_transitive :
  (forall a, lessColour a a = false) /\
  (forall a b, lessColour a b = true -> lessColour b a = false) /\
  (forall h l i j, Less h l i j = Some true -> Less h l j i = Some false) /\
  (lessColour hueHigh hueMid = true /\ lessColour hueMid hueLow = true /\
   lessColour hueLow hueHigh = true).
Proof.
  split; [|split; [|split]].
  - intros a. destruct (lessColour a a) eqn:E; [|reflexivity].
    now rewrite (lessColour_asym a a E) in E.
  - exact lessColour_asym.
  - intros h l i j. unfold Less.
    destruct (l !! i) as [a|]; [|discriminate].
    destruct (l !! j) as [b|]; [|discriminate]. cbn.
    intros [= H]. now rewrite (lessColour_asym _ _ H).
  - repeat split; reflexivity.
Qed.

Lemma Less_strict_not_transitive_witness :
  lessColour hueMid hueHigh = false /\
  Less (<[0%nat := hueHigh]> (<[1%nat := hueMid]> ∅)) [1; 0]%nat 0 1 = Some false.
Proof.
  destruct Less_strict_not_transitive as (_ & Hasym & Hless & _).
  split.
  - apply Hasym. reflexivity.
  - apply Hless. reflexivity.
Defined.

(** ** What Swap does *)

Lemma withIndex_withIndex (e : UniqueColour.t) (a b : Z) :
  UniqueColour.withIndex (UniqueColour.withIndex e a) b =
  UniqueColour.withIndex e b.
Proof. reflexivity. Qed.

(** What one [Swap] does to the slice and to the heap. *)
Lemma Swap_effect (h : Heap) (l : UniqueColourList) (i j : nat)
    (a b : ptr) :
  l !! i = Some a -> l !! j = Some b ->
  exists h' l',
    Swap h l i j = Some (h', l') /\
    length l' = length l /\
    l' !! i = Some b /\ l' !! j = Some a /\
    (forall k, k <> i -> k <> j -> l' !! k = l !! k) /\
    h' !!! a = UniqueColour.withIndex (h !!! a) (UniqueColour.Index (h !!! b)) /\
    h' !!! b = UniqueColour.withIndex (h !!! b) (UniqueColour.Index (h !!! a)) /\
    (forall c, c <> a -> c <> b -> h' !!! c = h !!! c).
Proof.
  intros Hi Hj. unfold Swap. rewrite Hi, Hj. cbn [mbind option_bind].
  pose proof (lookup_lt_Some _ _ _ Hi) as Hli.
  pose proof (lookup_lt_Some _ _ _ Hj) as Hlj.
  eexists _, _. split; [reflexivity|].
  split; [now rewrite !length_insert|].
  split; [|split; [|split; [|split; [|split]]]].
  - destruct (decide (i = j)) as [->|Hne].
    + rewrite list_lookup_insert_eq by (now rewrite length_insert). congruence.
    + rewrite list_lookup_insert_ne by congruence.
      now rewrite list_lookup_insert_eq.
  - now rewrite list_lookup_insert_eq by (now rewrite length_insert).
  - intros k Hki Hkj. now rewrite !list_lookup_insert_ne by congruence.
  - destruct (decide (b = a)) as [->|Hne].
    + rewrite !lookup_total_insert_eq. apply withIndex_withIndex.
    + rewrite lookup_total_insert_ne by exact Hne.
      now rewrite lookup_total_insert_eq.
  - rewrite lookup_total_insert_eq.
    destruct (decide (a = b)) as [->|Hne].
    + rewrite lookup_total_insert_eq. apply withIndex_withIndex.
    + now rewrite lookup_total_insert_ne by exact Hne.
  - intros c Hca Hcb. now rewrite !lookup_total_insert_ne by congruence.
Qed.



(** X7.  Swapping the same two positions twice puts the list back, and every
    entry of the heap reads as before. *)
Theorem Swap_twice (h h1 : Heap) (l l1 : UniqueColourList) (i j : nat) :
  Swap h l i j = Some (h1, l1) ->
  exists h2,
    Swap h1 l1 i j = Some (h2, l) /\ forall c, h2 !!! c = h !!! c.
Proof.
  intros Hswap.
  destruct (l !! i) as [a|] eqn:Hi;
    [|unfold Swap in Hswap; now rewrite Hi in Hswap].
  destruct (l !! j) as [b|] eqn:Hj;
    [|unfold Swap in Hswap; now rewrite Hi, Hj in Hswap].
  destruct (Swap_effect h l i j a b Hi Hj)
    as (h1' & l1' & Heq & Hlen & Hi1 & Hj1 & Hk1 & Ha1 & Hb1 & Hc1).
  rewrite Heq in Hswap. injection Hswap as -> ->.
  destruct (Swap_effect h1 l1 i j b a Hi1 Hj1)
    as (h2 & l2 & Heq2 & Hlen2 & Hi2 & Hj2 & Hk2 & Hb2 & Ha2 & Hc2).
  exists h2. split.
  - rewrite Heq2. do 2 f_equal. apply list_eq. intros k.
    destruct (decide (k = i)) as [->|Hki]; [congruence|].
    destruct (decide (k = j)) as [->|Hkj]; [congruence|].
    now rewrite Hk2, Hk1.
  - intros c.
    destruct (decide (c = a)) as [->|Hca].
    + rewrite Ha2, Ha1, Hb1. unfold UniqueColour.withIndex. cbn.
      now destruct (h !!! a).
    + destruct (decide (c = b)) as [->|Hcb].
      * rewrite Hb2, Hb1, Ha1. unfold UniqueColour.withIndex. cbn.
        now destruct (h !!! b).
      * now rewrite Hc2, Hc1.
Qed.

Lemma Swap_twice_witness :
  exists h2,
    Swap (<[5%nat := UniqueColour.withIndex hueLow 1]>
            (<[7%nat := UniqueColour.withIndex hueHigh 0]> ∅))
         [7; 5]%nat 0 1 = Some (h2, [5; 7]%nat) /\
    forall c,
      h2 !!! c =
      (<[5%nat := UniqueColour.withIndex hueLow 0]>
         (<[7%nat := UniqueColour.withIndex hueHigh 1]> ∅) : Heap) !!! c.
Proof.
  apply (Swap_twice _ _ [5; 7]%nat [7; 5]%nat 0 1). reflexivity.
Defined.

(** ** The normaliser on 8-bit colours *)

(** A colour whose four channels are bytes. *)
Definition bytes (c : color.RGBA) : Prop :=
  0 <= color.R c <= 255 /\ 0 <= color.G c <= 255 /\
  0 <= color.B c <= 255 /\ 0 <= color.A c <= 255.

Lemma scale_widen (v : Z) : 0 <= v <= 255 ->
  scaleChannel (Z.lor v (Z.shiftl v 8)) = v.
Proof.
  intros Hv. rewrite widen_byte by exact Hv.
  rewrite scaleChannel_div by lia.
  rewrite Z.mul_comm. apply Z.div_mul. lia.
Qed.

(** X8.  [colourTo8BitRGBA] always returns bytes, and it undoes the widening
    to 16 bits that [RGBA()] does: a [color.RGBA] pixel comes back as it
    is, and an opaque [color.NRGBA] pixel with its own channels. *)
Theorem colourTo8BitRGBA_round_trip :
  (forall c, bytes (colourTo8BitRGBA c)) /\
  (forall c, bytes c -> colourTo8BitRGBA (color.OfRGBA c) = c) /\
  (forall r g b,
     0 <= r <= 255 -> 0 <= g <= 255 -> 0 <= b <= 255 ->
     colourTo8BitRGBA (color.OfNRGBA (color.mkNRGBA r g b 255)) =
       color.mkRGBA r g b 255).
Proof.
  split; [|split].
  - intros c. unfold colourTo8BitRGBA, bytes.
    destruct (color.Color_RGBA c) as [[[r g] b] a]. cbn.
    pose proof (scaleChannel_byte r). pose proof (scaleChannel_byte g).
    pose proof (scaleChannel_byte b). pose proof (scaleChannel_byte a). lia.
  - intros [r g b a] (Hr & Hg & Hb & Ha). cbn in Hr, Hg, Hb, Ha.
    unfold colourTo8BitRGBA. cbn [color.Color_RGBA color.R color.G color.B color.A].
    now rewrite !scale_widen by assumption.
  - intros r g b Hr Hg Hb.
    unfold colourTo8BitRGBA. cbn [color.Color_RGBA color.nR color.nG color.nB color.nA].
    rewrite !widen_byte by lia.
    replace (257 * r * 255 / 255) with (257 * r) by (symmetry; apply Z.div_mul; lia).
    replace (257 * g * 255 / 255) with (257 * g) by (symmetry; apply Z.div_mul; lia).
    replace (257 * b * 255 / 255) with (257 * b) by (symmetry; apply Z.div_mul; lia).
    rewrite <- !widen_byte by lia. now rewrite !scale_widen by lia.
Qed.

Lemma colourTo8BitRGBA_round_trip_witness :
  colourTo8BitRGBA (color.OfRGBA (color.mkRGBA 12 34 56 78)) =
    color.mkRGBA 12 34 56 78 /\
  colourTo8BitRGBA (color.OfNRGBA (color.mkNRGBA 200 100 50 255)) =
    color.mkRGBA 200 100 50 255.
Proof.
  destruct colourTo8BitRGBA_round_trip as (_ & Hrgba & Hnrgba).
  split.
  - apply (Hrgba (color.mkRGBA 12 34 56 78)). unfold bytes. cbn. lia.
  - apply (Hnrgba 200 100 50); lia.
Defined.

(** X9.  A palette key is solid, and normalising it again changes nothing:
    the keys are fixed points of [colourTo8BitPaletteRGBA]. *)
Theorem palette_key_fixed_point (c : color.Color) :
  color.A (colourTo8BitPaletteRGBA c) = 255 /\
  colourTo8BitPaletteRGBA (color.OfRGBA (colourTo8BitPaletteRGBA c)) =
    colourTo8BitPaletteRGBA c.
Proof.
  split; [reflexivity|].
  unfold colourTo8BitPaletteRGBA, colourTo8BitRGBA.
  destruct (color.Color_RGBA c) as [[[r g] b] a].
  cbn [color.Color_RGBA color.R color.G color.B color.A].
  pose proof (scaleChannel_byte r). pose proof (scaleChannel_byte g).
  pose proof (scaleChannel_byte b).
  now rewrite !scale_widen by lia.
Qed.

(** ** Size of the palette image *)

Lemma smallest_power_below_double (v r : Z) :
  1 <= v -> smallestPowerOfTwoAtLeast v r -> v <= r < 2 * v.
Proof.
  intros Hv ((k & Hk & ->) & Hle & Hmin). split; [exact Hle|].
  destruct (Z.eq_dec k 0) as [->|Hk0]; [simpl; lia|].
  destruct (Z.lt_ge_cases (2 ^ k) (2 * v)) as [Hlt|Hge]; [exact Hlt|].
  exfalso.
  assert (Hpow : 2 ^ k = 2 * 2 ^ (k - 1)).
  { rewrite <- Z.pow_succ_r by lia. f_equal. lia. }
  specialize (Hmin (2 ^ (k - 1))).
  assert (0 < 2 ^ (k - 1)) by (apply Z.pow_pos_nonneg; lia).
  assert (2 ^ k <= 2 ^ (k - 1)); [|lia].
  apply Hmin; [exists (k - 1); split; [lia|reflexivity]|lia].
Qed.

(** The cells of the palette image: enough for every entry, and fewer
    than twice as many. *)
Lemma getPaletteImageDimensions_area (N : Z) :
  1 <= N <= 65536 ->
  let '(width, height) := getPaletteImageDimensions N in
  1 <= width <= 256 /\ 1 <= height /\ N <= width * height < 2 * N.
Proof.
  intros HN. rewrite (getPaletteImageDimensions_policy N HN).
  unfold paletteSizingPolicy.
  destruct (Z.leb_spec N 128) as [H128|H128];
    [|destruct (Z.leb_spec N 256) as [H256|H256]].
  - pose proof (nextPowerOfTwo_smallest N ltac:(lia)) as Hs.
    pose proof (smallest_power_below_double N _ ltac:(lia) Hs) as Hb. lia.
  - lia.
  - unfold ceilDiv256.
    pose proof (Z.div_mod (N + 255) 256 ltac:(lia)) as Hdm.
    pose proof (Z.mod_pos_bound (N + 255) 256 ltac:(lia)) as Hm.
    assert (Hc : 2 <= (N + 255) / 256 <= 256) by lia.
    pose proof (nextPowerOfTwo_smallest ((N + 255) / 256) ltac:(lia)) as Hs.
    pose proof (smallest_power_below_double ((N + 255) / 256) _ ltac:(lia) Hs)
      as Hb.
    split; [lia|]. split; [lia|]. split; [lia|].
    (* the smallest power of two at least c is at most 2 (c - 1) *)
    destruct Hs as ((k & Hk & Hpow) & _ & Hmin).
    destruct (Z.eq_dec k 0) as [->|Hk0]; [simpl in Hpow; lia|].
    assert (Hhalf : 2 ^ k = 2 * 2 ^ (k - 1)).
    { rewrite <- Z.pow_succ_r by lia. f_equal. lia. }
    assert (Hlt : 2 ^ (k - 1) < (N + 255) / 256).
    { destruct (Z.lt_ge_cases (2 ^ (k - 1)) ((N + 255) / 256)) as [?|Hge];
        [assumption|].
      assert (0 < 2 ^ (k - 1)) by (apply Z.pow_pos_nonneg; lia).
      assert (nextPowerOfTwo ((N + 255) / 256) <= 2 ^ (k - 1)); [|lia].
      apply Hmin; [exists (k - 1); split; [lia|reflexivity]|lia]. }
    lia.
Qed.

(** X10.  For every catalogue size from 1 to the capacity, the palette image
    is at most 256 wide, both sides are powers of two, every entry has a
    cell, and fewer than half of the cells stay empty. *)
Theorem palette_image_fits (N : Z) :
  1 <= N <= 65536 ->
  let '(width, height) := getPaletteImageDimensions N in
  isPowerOfTwo width /\ isPowerOfTwo height /\
  1 <= width <= 256 /\ 1 <= height /\
  N <= width * height < 2 * N.
Proof.
  intros HN. pose proof (getPaletteImageDimensions_area N HN) as Harea.
  rewrite (getPaletteImageDimensions_policy N HN) in *.
  unfold paletteSizingPolicy in *.
  assert (H256 : isPowerOfTwo 256) by (exists 8; split; [lia|reflexivity]).
  assert (H1 : isPowerOfTwo 1) by (exists 0; split; [lia|reflexivity]).
  destruct (Z.leb_spec N 128) as [?|?];
    [|destruct (Z.leb_spec N 256) as [?|?]].
  - split; [apply nextPowerOfTwo_smallest; lia|]. split; [exact H1|exact Harea].
  - split; [exact H256|]. split; [exact H1|exact Harea].
  - split; [exact H256|]. split; [|exact Harea].
    apply nextPowerOfTwo_smallest. unfold ceilDiv256.
    pose proof (Z.div_mod (N + 255) 256 ltac:(lia)).
    pose proof (Z.mod_pos_bound (N + 255) 256 ltac:(lia)). lia.
Qed.

Lemma palette_image_fits_witness :
  let '(width, height) := getPaletteImageDimensions 300 in
  isPowerOfTwo width /\ isPowerOfTwo height /\
  1 <= width <= 256 /\ 1 <= height /\
  300 <= width * height < 2 * 300.
Proof. apply (palette_image_fits 300). lia. Defined.

(** ** The pixels visited by the two loops *)

Lemma elem_of_span (lo hi x : Z) : x ∈ span lo hi <-> lo <= x < hi.
Proof.
  unfold span. split.
  - intros Hx. apply (list_elem_of_fmap (fun k => lo + Z.of_nat k)) in Hx
      as (k & -> & Hk).
    apply elem_of_seq in Hk. lia.
  - intros Hx. apply (list_elem_of_fmap (fun k => lo + Z.of_nat k)).
    exists (Z.to_nat (x - lo)). split; [lia|]. apply elem_of_seq. lia.
Qed.

(** The loops visit the points of the bounds, and only those. *)
Lemma elem_of_coords (b : image.Rectangle) (x y : Z) :
  (x, y) ∈ coords b <-> image.In x y b = true.
Proof.
  unfold coords, image.In.
  rewrite !andb_true_iff, !Z.leb_le, !Z.ltb_lt. split.
  - intros Hin. apply list_elem_of_bind in Hin as (y' & Hin & Hy).
    apply list_elem_of_bind in Hin as (x' & Hin & Hx).
    apply list_elem_of_singleton in Hin. injection Hin as -> ->.
    apply elem_of_span in Hx, Hy. lia.
  - intros Hin. apply list_elem_of_bind. exists y.
    split; [|apply elem_of_span; lia].
    apply list_elem_of_bind. exists x.
    split; [apply list_elem_of_singleton; reflexivity|apply elem_of_span; lia].
Qed.

(** ** The colour map after the first loop *)

Lemma palette_key_bytes (c : color.Color) :
  bytes (colourTo8BitPaletteRGBA c).
Proof.
  unfold colourTo8BitPaletteRGBA, colourTo8BitRGBA, bytes.
  destruct (color.Color_RGBA c) as [[[r g] b] a]. cbn.
  pose proof (scaleChannel_byte r). pose proof (scaleChannel_byte g).
  pose proof (scaleChannel_byte b). lia.
Qed.

(** X11.  After the first loop the keys of the colour map are exactly the
    normalised colours of the pixels, all of them solid 8-bit colours;
    each key points at an entry of its own, which holds the key, the
    HSV of its three channels over 255, and index 0. *)
Theorem scanImage_catalogue (w : World) (img : image.Image) :
  (forall p, is_Some (colourMap (scanImage w img) !! p) <->
             p ∈ canonicalColours img) /\
  (forall p a, colourMap (scanImage w img) !! p = Some a ->
     bytes p /\ color.A p = 255 /\
     heap (scanImage w img) !!! a =
       let '(h, s, v) :=
         Hsv w (F64.div (F64.of_Z (color.R p)) f255)
               (F64.div (F64.of_Z (color.G p)) f255)
               (F64.div (F64.of_Z (color.B p)) f255) in
       UniqueColour.mk p h s v 0) /\
  (forall p q a, colourMap (scanImage w img) !! p = Some a ->
                 colourMap (scanImage w img) !! q = Some a -> p = q) /\
  size (colourMap (scanImage w img)) = length (distinctColours img).
Proof.
  pose proof (scanImage_ok w img) as Hok.
  split; [apply Hok|]. split; [|split].
  - intros p a Hp.
    assert (Hin : p ∈ canonicalColours img) by (apply Hok; eauto).
    apply list_elem_of_fmap in Hin as (xy & -> & _).
    split; [apply palette_key_bytes|]. split; [reflexivity|].
    now destruct (cat_entry _ _ _ Hok _ _ Hp) as [_ ->].
  - intros p q a Hp Hq.
    rewrite <- (catalogue_key_of_entry w _ _ p a Hok Hp).
    now rewrite <- (catalogue_key_of_entry w _ _ q a Hok Hq).
  - apply scanImage_size.
Qed.

(** ** The palette returned *)

(** The colours of the sorted list are the keys of the map. *)
Lemma paletteOf_keys (w : World) (cat : Catalogue) (seen : list color.RGBA)
    (h : Heap) (l : UniqueColourList) :
  catalogue_of w cat seen -> same_colours (heap cat) h ->
  l ≡ₚ (map_to_list (colourMap cat)).*2 ->
  paletteOf (h, l) ≡ₚ remove_dups seen.
Proof.
  intros Hok Hsame Hperm. unfold paletteOf. cbn [fst snd].
  rewrite Hperm, <- list_fmap_compose.
  assert (Hkeys : (fun c => UniqueColour.RGBA (h !!! c)) ∘ snd <$>
                    map_to_list (colourMap cat) =
                  (map_to_list (colourMap cat)).*1).
  { apply list_eq. intros i. rewrite !list_lookup_fmap.
    destruct (map_to_list (colourMap cat) !! i) as [[p a]|] eqn:Hi;
      [|reflexivity].
    cbn. f_equal. rewrite (same_colours_RGBA _ _ _ Hsame).
    apply (catalogue_key_of_entry w cat seen p a Hok).
    apply elem_of_map_to_list. eapply list_elem_of_lookup_2, Hi. }
  rewrite Hkeys. clear Hkeys.
  apply NoDup_Permutation.
  - apply NoDup_fst_map_to_list.
  - apply NoDup_remove_dups.
  - intros p. rewrite elem_of_remove_dups, <- (cat_keys _ _ _ Hok).
    rewrite list_elem_of_fmap. split.
    + intros ([q a] & -> & Hin). apply elem_of_map_to_list in Hin. eauto.
    + intros [a Ha]. exists (p, a). split; [reflexivity|].
      now apply elem_of_map_to_list.
Qed.

(** What a successful run leaves behind: the sorted catalogue, the
    palette built from it and the files written. *)
Lemma GenerateFromImage_run (w : World) (img : image.Image)
    (outImagePath outPaletteTexture : string) palette evs :
  range_visits_all w ->
  GenerateFromImage w img outImagePath outPaletteTexture
    = Some (inr palette, evs) ->
  exists h l,
    same_colours (heap (scanImage w img)) h /\
    indexed h l /\
    l ≡ₚ (map_to_list (colourMap (scanImage w img))).*2 /\
    Z.of_nat (length l) <= 65536 /\
    writtenSprite evs = Some (encodeImage img (colourMap (scanImage w img)) h) /\
    (outPaletteTexture <> EmptyString ->
     palette = paletteOf (h, l) /\
     writtenPalette evs =
       Some (let '(width, height) :=
               getPaletteImageDimensions (Z.of_nat (length l)) in
             (layPalette h l width height).1)).
Proof.
  intros Hrange Hrun.
  pose proof (GenerateFromImage_returns _ _ _ _ _ _ Hrun) as (Hsize & _).
  destruct (sortedCatalogue_spec w _ _ (scanImage_ok w img) Hrange Hsize)
    as (h & l & Hsorted & Hsame & Hidx & Hperm & _).
  exists h, l. split; [exact Hsame|]. split; [exact Hidx|].
  split; [exact Hperm|].
  split; [now rewrite Hperm, length_fmap, length_map_to_list|].
  revert Hrun. unfold GenerateFromImage.
  destruct (Z.ltb_spec 65536 (Z.of_nat (size (colourMap (scanImage w img)))))
    as [Hgt|_]; [lia|].
  rewrite Hsorted. cbn [mbind option_bind]. unfold Len.
  destruct (openFails w outImagePath); [discriminate|].
  destruct (encodeFails w outImagePath); [discriminate|].
  destruct outPaletteTexture as [|c s].
  - cbn [String.length Nat.ltb Nat.leb]. intros Hrun. inversion Hrun; subst.
    split; [reflexivity|]. congruence.
  - cbn [String.length Nat.ltb Nat.leb].
    destruct (getPaletteImageDimensions _) as [width height].
    pose proof (layPalette_palette h l width height) as Hpal.
    destruct (layPalette h l width height) as [outPalette palette'].
    destruct (openFails w (String c s)); [discriminate|].
    destruct (encodeFails w (String c s)); [discriminate|].
    intros Hrun. inversion Hrun; subst. cbn in Hpal.
    split; [reflexivity|]. intros _. split; [exact Hpal|reflexivity].
Qed.

(** X12.  With a palette path, the palette returned lists every distinct
    normalised colour of the image once and nothing else, and all its
    colours are solid. *)
Theorem palette_is_the_distinct_colours (w : World) (img : image.Image)
    (outImagePath outPaletteTexture : string) palette evs :
  range_visits_all w -> outPaletteTexture <> EmptyString ->
  GenerateFromImage w img outImagePath outPaletteTexture
    = Some (inr palette, evs) ->
  palette ≡ₚ distinctColours img /\ NoDup palette /\
  (forall x y, image.In x y (image.Bounds img) = true ->
     colourTo8BitPaletteRGBA (image.At img x y) ∈ palette) /\
  (forall c, c ∈ palette -> color.A c = 255).
Proof.
  intros Hrange Hpath Hrun.
  destruct (GenerateFromImage_run _ _ _ _ _ _ Hrange Hrun)
    as (h & l & Hsame & _ & Hperm & _ & _ & Hpal).
  destruct (Hpal Hpath) as [-> _].
  pose proof (paletteOf_keys w _ _ h l (scanImage_ok w img) Hsame Hperm) as Hp.
  fold (distinctColours img) in Hp.
  split; [exact Hp|]. split; [|split].
  - rewrite Hp. apply NoDup_remove_dups.
  - intros x y Hin. rewrite Hp. unfold distinctColours.
    apply elem_of_remove_dups.
    apply list_elem_of_fmap. exists (x, y). split; [reflexivity|].
    now apply elem_of_coords.
  - intros c Hc. rewrite Hp in Hc. unfold distinctColours in Hc.
    rewrite elem_of_remove_dups in Hc.
    apply list_elem_of_fmap in Hc as (xy & -> & _). reflexivity.
Qed.

(** ** The index image *)

Lemma encodePixel_rect (img : image.Image) (m : gmap color.RGBA ptr)
    (h : Heap) (s : image.NRGBA) (xy : Z * Z) :
  image.NRect (encodePixel img m h s xy) = image.NRect s.
Proof.
  unfold encodePixel, image.Set_.
  destruct (m !! _); [destruct (image.In _ _ _)|]; reflexivity.
Qed.

Lemma encode_fold_rect (img : image.Image) (m : gmap color.RGBA ptr)
    (h : Heap) (l : list (Z * Z)) :
  forall s, image.NRect (foldl (encodePixel img m h) s l) = image.NRect s.
Proof.
  induction l as [|xy l IH]; intros s; [reflexivity|].
  cbn [foldl]. now rewrite IH, encodePixel_rect.
Qed.

(** A pixel the loop does not visit keeps what it held. *)
Lemma encode_fold_untouched (img : image.Image) (m : gmap color.RGBA ptr)
    (h : Heap) (l : list (Z * Z)) :
  forall s x y, (x, y) ∉ l ->
    image.NPix (foldl (encodePixel img m h) s l) !! (x, y) =
    image.NPix s !! (x, y).
Proof.
  induction l as [|xy l IH]; intros s x y Hnot; [reflexivity|].
  apply not_elem_of_cons in Hnot as [Hne Hnot].
  cbn [foldl]. rewrite IH by exact Hnot.
  unfold encodePixel, image.Set_.
  destruct (m !! _); [destruct (image.In _ _ _)|]; try reflexivity.
  cbn. apply lookup_insert_ne. intros Heq. apply Hne.
  destruct xy. cbn in Heq. congruence.
Qed.

(** A pixel it visits holds the index colour of its key. *)
Lemma encode_fold_written (img : image.Image) (m : gmap color.RGBA ptr)
    (h : Heap) (l : list (Z * Z)) :
  forall s x y col,
    (x, y) ∈ l -> image.In x y (image.NRect s) = true ->
    m !! colourTo8BitPaletteRGBA (image.At img x y) = Some col ->
    image.NPix (foldl (encodePixel img m h) s l) !! (x, y) =
      Some (color.nrgbaModel
              (color.OfRGBA (indexPixel (h !!! col)
                 (colourTo8BitPaletteRGBA (image.At img x y))))).
Proof.
  induction l as [|xy l IH]; intros s x y col Hin Hrect Hm.
  - now apply elem_of_nil in Hin.
  - cbn [foldl]. destruct (decide ((x, y) ∈ l)) as [Hl|Hl].
    + apply IH; [exact Hl| |exact Hm]. now rewrite encodePixel_rect.
    + rewrite encode_fold_untouched by exact Hl.
      apply elem_of_cons in Hin as [<-|Hin]; [|contradiction].
      unfold encodePixel. cbn [fst snd]. rewrite Hm.
      unfold image.Set_. rewrite Hrect. cbn. apply lookup_insert_eq.
Qed.

Lemma Rect_ordered (x0 y0 x1 y1 : Z) :
  x0 <= x1 -> y0 <= y1 -> image.Rect x0 y0 x1 y1 = image.mkRect x0 y0 x1 y1.
Proof.
  intros Hx Hy. unfold image.Rect.
  destruct (Z.ltb_spec x1 x0); [lia|]. destruct (Z.ltb_spec y1 y0); [lia|].
  reflexivity.
Qed.

(** The low byte of a 16-bit index is all the index colour keeps. *)
Lemma indexPixel_low_byte (col : UniqueColour.t) (c : color.Color) :
  0 <= UniqueColour.Index col < 65536 ->
  color.nrgbaModel
    (color.OfRGBA (indexPixel col (colourTo8BitPaletteRGBA c))) =
  color.mkNRGBA (UniqueColour.Index col mod 256) 0 0 255.
Proof.
  intros Hi. unfold indexPixel.
  replace (Z.shiftr (UniqueColour.Index col) 16) with 0.
  2:{ rewrite Z.shiftr_div_pow2 by lia. change (2 ^ 16) with 65536.
      now rewrite Z.div_small by lia. }
  replace (Z.land (UniqueColour.Index col) 65535)
    with (UniqueColour.Index col).
  2:{ change 65535 with (Z.ones 16). rewrite Z.land_ones by lia.
      change (2 ^ 16) with 65536. now rewrite Z.mod_small by lia. }
  change (color.A (colourTo8BitPaletteRGBA c)) with 255.
  change (GoInt.uint8 0) with 0.
  unfold GoInt.uint8.
  pose proof (Z.mod_pos_bound (UniqueColour.Index col) 256 ltac:(lia)).
  apply nrgbaModel_opaque; lia.
Qed.

(** The index image of a sorted catalogue, pixel by pixel. *)
Lemma encodeImage_pixel (w : World) (img : image.Image) (h : Heap)
    (l : UniqueColourList) (x y : Z) :
  same_colours (heap (scanImage w img)) h ->
  indexed h l ->
  l ≡ₚ (map_to_list (colourMap (scanImage w img))).*2 ->
  Z.of_nat (length l) <= 65536 ->
  image.In x y (image.Bounds img) = true ->
  exists (n : nat) (a : ptr),
    l !! n = Some a /\
    UniqueColour.RGBA (h !!! a) = colourTo8BitPaletteRGBA (image.At img x y) /\
    image.NRGBAAt (encodeImage img (colourMap (scanImage w img)) h) x y =
      color.mkNRGBA (Z.of_nat n mod 256) 0 0 255.
Proof.
  intros Hsame Hidx Hperm Hlen Hin.
  pose proof (scanImage_ok w img) as Hok.
  set (key := colourTo8BitPaletteRGBA (image.At img x y)).
  assert (Hvisit : (x, y) ∈ coords (image.Bounds img))
    by now apply elem_of_coords.
  assert (Hkey : is_Some (colourMap (scanImage w img) !! key)).
  { apply (cat_keys _ _ _ Hok). apply list_elem_of_fmap.
    exists (x, y). split; [reflexivity|exact Hvisit]. }
  destruct Hkey as [a Ha].
  assert (Hal : a ∈ l).
  { rewrite Hperm. apply list_elem_of_fmap. exists (key, a).
    split; [reflexivity|]. now apply elem_of_map_to_list. }
  apply list_elem_of_lookup in Hal as [n Hn].
  exists n, a. split; [exact Hn|]. split.
  { rewrite (same_colours_RGBA _ _ _ Hsame).
    exact (catalogue_key_of_entry w _ _ key a Hok Ha). }
  pose proof (lookup_lt_Some _ _ _ Hn) as Hlt.
  unfold image.NRGBAAt, encodeImage.
  unfold image.In in Hin.
  rewrite !andb_true_iff, !Z.leb_le, !Z.ltb_lt in Hin.
  rewrite (encode_fold_written img _ h _ _ x y a Hvisit); [|
    |exact Ha].
  - cbn [default]. fold key.
    rewrite <- (Hidx n a Hn). apply indexPixel_low_byte.
    rewrite (Hidx n a Hn). lia.
  - cbn [image.NewNRGBA image.NRect]. rewrite Rect_ordered by lia.
    unfold image.In. cbn.
    rewrite !andb_true_iff, !Z.leb_le, !Z.ltb_lt. lia.
Qed.

(** X13.  Every pixel inside the bounds of the image is written: it holds
    the low byte of the position its colour has in the sorted catalogue
    (the position at which the palette returned has that colour), then
    0, 0 and alpha 255.  Nothing is written outside the bounds. *)
Theorem index_image_content (w : World) (img : image.Image)
    (outImagePath outPaletteTexture : string) palette evs :
  range_visits_all w ->
  GenerateFromImage w img outImagePath outPaletteTexture
    = Some (inr palette, evs) ->
  exists s,
    writtenSprite evs = Some s /\
    (forall x y, image.In x y (image.Bounds img) = true ->
       exists n : nat,
         (n < length (distinctColours img))%nat /\
         (outPaletteTexture <> EmptyString ->
          palette !! n = Some (colourTo8BitPaletteRGBA (image.At img x y))) /\
         image.NRGBAAt s x y = color.mkNRGBA (Z.of_nat n mod 256) 0 0 255) /\
    (forall x y, image.In x y (image.Bounds img) = false ->
       image.NRGBAAt s x y = color.mkNRGBA 0 0 0 0).
Proof.
  intros Hrange Hrun.
  destruct (GenerateFromImage_run _ _ _ _ _ _ Hrange Hrun)
    as (h & l & Hsame & Hidx & Hperm & Hlen & Hsprite & Hpal).
  eexists. split; [exact Hsprite|]. split.
  - intros x y Hin.
    destruct (encodeImage_pixel w img h l x y Hsame Hidx Hperm Hlen Hin)
      as (n & a & Hn & Hrgba & Hpix).
    exists n. split; [|split; [|exact Hpix]].
    + pose proof (lookup_lt_Some _ _ _ Hn) as Hlt.
      now rewrite Hperm, length_fmap, length_map_to_list,
        (scanImage_size w img) in Hlt.
    + intros Hpath. destruct (Hpal Hpath) as [-> _].
      unfold paletteOf. cbn [fst snd].
      now rewrite list_lookup_fmap, Hn, <- Hrgba.
  - intros x y Hout. unfold image.NRGBAAt, encodeImage.
    rewrite encode_fold_untouched; [reflexivity|].
    rewrite elem_of_coords. congruence.
Qed.

(** A small sprite: two reds, a green and a half-transparent red. *)
Definition fourPixels : image.Image :=
  image.mkImage (image.mkRect 0 0 2 2)
    (fun x y =>
       if (x =? 1) && (y =? 0) then color.OfNRGBA (color.mkNRGBA 0 255 0 255)
       else if (x =? 0) && (y =? 1) then color.OfNRGBA (color.mkNRGBA 255 0 0 128)
       else color.OfNRGBA (color.mkNRGBA 255 0 0 255)).

Definition eventsOf (r : option ((error + list color.RGBA) * list event))
  : list event := default [] (snd <$> r).

Lemma quietWorld_range : range_visits_all quietWorld.
Proof. intros l. reflexivity. Qed.

Lemma fourPixels_run :
  GenerateFromImage quietWorld fourPixels "sprite.png" "palette.png" =
  Some (inr [color.mkRGBA 128 0 0 255; color.mkRGBA 255 0 0 255;
             color.mkRGBA 0 255 0 255],
        eventsOf (GenerateFromImage quietWorld fourPixels
                    "sprite.png" "palette.png")).
Proof. vm_compute. reflexivity. Qed.

Lemma index_image_content_witness :
  exists s,
    writtenSprite (eventsOf (GenerateFromImage quietWorld fourPixels
                               "sprite.png" "palette.png")) = Some s /\
    (forall x y, image.In x y (image.Bounds fourPixels) = true ->
       exists n : nat,
         (n < length (distinctColours fourPixels))%nat /\
         ("palette.png"%string <> EmptyString ->
          [color.mkRGBA 128 0 0 255; color.mkRGBA 255 0 0 255;
           color.mkRGBA 0 255 0 255] !! n =
            Some (colourTo8BitPaletteRGBA (image.At fourPixels x y))) /\
         image.NRGBAAt s x y = color.mkNRGBA (Z.of_nat n mod 256) 0 0 255) /\
    (forall x y, image.In x y (image.Bounds fourPixels) = false ->
       image.NRGBAAt s x y = color.mkNRGBA 0 0 0 0).
Proof.
  apply (index_image_content quietWorld fourPixels "sprite.png" "palette.png").
  - exact quietWorld_range.
  - exact fourPixels_run.
Defined.

(** X14.  The index image read back through the palette: a pixel gives the
    palette colour at the low byte of its position, which is its own
    normalised colour whenever the image has at most 256 colours. *)
Theorem round_trip_up_to_256_colours (w : World) (img : image.Image)
    (outImagePath outPaletteTexture : string) palette evs :
  range_visits_all w -> outPaletteTexture <> EmptyString ->
  GenerateFromImage w img outImagePath outPaletteTexture
    = Some (inr palette, evs) ->
  (length (distinctColours img) <= 256)%nat ->
  forall x y, image.In x y (image.Bounds img) = true ->
    lookedUp (GenerateFromImage w img outImagePath outPaletteTexture) x y =
      Some (colourTo8BitPaletteRGBA (image.At img x y)).
Proof.
  intros Hrange Hpath Hrun Hfew x y Hin.
  destruct (GenerateFromImage_run _ _ _ _ _ _ Hrange Hrun)
    as (h & l & Hsame & Hidx & Hperm & Hlen & Hsprite & Hpal).
  destruct (Hpal Hpath) as [-> _].
  destruct (encodeImage_pixel w img h l x y Hsame Hidx Hperm Hlen Hin)
    as (n & a & Hn & Hrgba & Hpix).
  assert (Hlt : (n < 256)%nat).
  { pose proof (lookup_lt_Some _ _ _ Hn) as Hlt.
    rewrite Hperm, length_fmap, length_map_to_list, (scanImage_size w img) in Hlt.
    lia. }
  rewrite Hrun. unfold lookedUp, spriteAt, returned.
  cbn [fmap option_fmap option_map mbind option_bind fst snd].
  rewrite Hsprite. cbn [mbind option_bind]. rewrite Hpix.
  unfold decodeIndex. cbn [color.nR color.nG].
  rewrite Z.mod_small by lia.
  replace (Z.to_nat (Z.of_nat n + 256 * 0)) with n by lia.
  unfold paletteOf. cbn [fst snd].
  now rewrite list_lookup_fmap, Hn, <- Hrgba.
Qed.

Lemma round_trip_up_to_256_colours_witness :
  lookedUp (GenerateFromImage quietWorld fourPixels
              "sprite.png" "palette.png") 0 1 =
    Some (colourTo8BitPaletteRGBA (image.At fourPixels 0 1)).
Proof.
  apply (round_trip_up_to_256_colours quietWorld fourPixels
           "sprite.png" "palette.png"
           [color.mkRGBA 128 0 0 255; color.mkRGBA 255 0 0 255;
            color.mkRGBA 0 255 0 255]
           (eventsOf (GenerateFromImage quietWorld fourPixels
                        "sprite.png" "palette.png"))
           quietWorld_range).
  - discriminate.
  - exact fourPixels_run.
  - vm_compute. lia.
  - reflexivity.
Defined.

Lemma palette_is_the_distinct_colours_witness :
  [color.mkRGBA 128 0 0 255; color.mkRGBA 255 0 0 255;
   color.mkRGBA 0 255 0 255] ≡ₚ distinctColours fourPixels /\
  NoDup [color.mkRGBA 128 0 0 255; color.mkRGBA 255 0 0 255;
         color.mkRGBA 0 255 0 255] /\
  (forall x y, image.In x y (image.Bounds fourPixels) = true ->
     colourTo8BitPaletteRGBA (image.At fourPixels x y) ∈
       [color.mkRGBA 128 0 0 255; color.mkRGBA 255 0 0 255;
        color.mkRGBA 0 255 0 255]) /\
  (forall c, c ∈ [color.mkRGBA 128 0 0 255; color.mkRGBA 255 0 0 255;
                  color.mkRGBA 0 255 0 255] -> color.A c = 255).
Proof.
  apply (palette_is_the_distinct_colours quietWorld fourPixels
           "sprite.png" "palette.png" _
           (eventsOf (GenerateFromImage quietWorld fourPixels
                        "sprite.png" "palette.png"))
           quietWorld_range).
  - discriminate.
  - exact fourPixels_run.
Defined.

(** ** The palette image *)

(** The cell of the [n]-th palette entry in an image [width] wide. *)
Definition cellOf (width : Z) (n : nat) : Z * Z :=
  (Z.of_nat n mod width, Z.of_nat n / width).

Lemma cellOf_inj (width : Z) (n k : nat) :
  0 < width -> cellOf width n = cellOf width k -> n = k.
Proof.
  intros Hw Heq. injection Heq as Hm Hd.
  pose proof (Z.div_mod (Z.of_nat n) width ltac:(lia)).
  pose proof (Z.div_mod (Z.of_nat k) width ltac:(lia)).
  nia.
Qed.

(** The cursor of the palette loop after [n] entries is the cell of
    [n]; the loop fills the cells of its entries one after the other and
    no other cell. *)
Lemma paletteStep_cells (h : Heap) (width height : Z) (l : UniqueColourList) :
  0 < width ->
  forall (n : nat) (outPalette : image.RGBA) (palette : list color.RGBA),
    image.RRect outPalette = image.mkRect 0 0 width height ->
    Z.of_nat (n + length l) <= width * height ->
    let st := foldl (paletteStep h width)
                    (outPalette, palette, Z.of_nat n mod width,
                     Z.of_nat n / width) l in
    image.RRect st.1.1.1 = image.mkRect 0 0 width height /\
    (forall k c, l !! k = Some c ->
       image.RPix st.1.1.1 !! cellOf width (n + k) =
         Some (UniqueColour.RGBA (h !!! c))) /\
    (forall xy, (forall k, (k < length l)%nat -> xy <> cellOf width (n + k)) ->
       image.RPix st.1.1.1 !! xy = image.RPix outPalette !! xy).
Proof.
  intros Hw. induction l as [|c l IH]; intros n outPalette palette Hrect Hfit.
  - cbn. split; [exact Hrect|]. split; [|reflexivity].
    intros k c Hk. now rewrite lookup_nil in Hk.
  - cbn [length] in Hfit. cbn [foldl paletteStep].
    pose proof (Z.div_mod (Z.of_nat n) width ltac:(lia)) as Hdm.
    pose proof (Z.mod_pos_bound (Z.of_nat n) width Hw) as Hm.
    set (x := Z.of_nat n mod width) in *.
    set (y := Z.of_nat n / width) in *.
    assert (Hy : 0 <= y < height) by nia.
    assert (Hnext : (if x + 1 =? width
                     then (0, y + 1) else (x + 1, y)) =
                    (Z.of_nat (S n) mod width, Z.of_nat (S n) / width)).
    { destruct (Z.eqb_spec (x + 1) width) as [Heq|Hne].
      - f_equal.
        + apply (Z.mod_unique _ _ (y + 1)); lia.
        + apply (Z.div_unique _ _ _ 0); lia.
      - f_equal.
        + apply (Z.mod_unique _ _ y); lia.
        + apply (Z.div_unique _ _ _ (x + 1)); lia. }
    set (out1 := image.SetRGBA outPalette x y (UniqueColour.RGBA (h !!! c))).
    assert (Hset : out1 =
      image.mkRGBA (image.mkRect 0 0 width height)
        (<[(x, y) := UniqueColour.RGBA (h !!! c)]> (image.RPix outPalette))).
    { unfold out1, image.SetRGBA. rewrite Hrect. unfold image.In. cbn.
      destruct (Z.leb_spec 0 x); [|lia]. destruct (Z.ltb_spec x width); [|lia].
      destruct (Z.leb_spec 0 y); [|lia]. destruct (Z.ltb_spec y height); [|lia].
      reflexivity. }
    assert (Hstep :
      (if x + 1 =? width
       then (out1, palette ++ [UniqueColour.RGBA (h !!! c)], 0, y + 1)
       else (out1, palette ++ [UniqueColour.RGBA (h !!! c)], x + 1, y)) =
      (out1, palette ++ [UniqueColour.RGBA (h !!! c)],
       Z.of_nat (S n) mod width, Z.of_nat (S n) / width)).
    { destruct (x + 1 =? width); now inversion Hnext. }
    rewrite Hstep.
    destruct (IH (S n) out1 (palette ++ [UniqueColour.RGBA (h !!! c)]))
      as (Hr & Hcells & Hrest).
    { now rewrite Hset. }
    { lia. }
    split; [exact Hr|]. split.
    + intros [|k] c' Hk.
      * cbn in Hk. injection Hk as <-. rewrite Hrest.
        -- rewrite Hset. cbn. rewrite Nat.add_0_r. apply lookup_insert_eq.
        -- intros k _ Heq. apply cellOf_inj in Heq; [lia|exact Hw].
      * cbn in Hk. replace (n + S k)%nat with (S n + k)%nat by lia.
        now apply Hcells.
    + intros xy Hxy. rewrite Hrest.
      * rewrite Hset. cbn. apply lookup_insert_ne.
        specialize (Hxy 0%nat ltac:(cbn; lia)).
        rewrite Nat.add_0_r in Hxy. intros Heq. apply Hxy.
        now rewrite <- Heq.
      * intros k Hk. replace (S n + k)%nat with (n + S k)%nat by lia.
        apply Hxy. cbn. lia.
Qed.

(** The palette image of a list that fits. *)
Lemma layPalette_cells (h : Heap) (l : UniqueColourList) (width height : Z) :
  0 < width -> 0 <= height -> Z.of_nat (length l) <= width * height ->
  image.RRect (layPalette h l width height).1 = image.mkRect 0 0 width height /\
  (forall k c, l !! k = Some c ->
     image.RPix (layPalette h l width height).1 !! cellOf width k =
       Some (UniqueColour.RGBA (h !!! c))) /\
  (forall xy, (forall k, (k < length l)%nat -> xy <> cellOf width k) ->
     image.RPix (layPalette h l width height).1 !! xy = None).
Proof.
  intros Hw Hh Hfit. unfold layPalette. fold (paletteStep h width).
  pose proof (paletteStep_cells h width height l Hw 0
                (image.NewRGBA (image.Rect 0 0 width height)) []) as H.
  rewrite Z.mod_0_l, Z.div_0_l in H by lia.
  destruct (foldl _ _ l) as [[[outPalette palette] x] y].
  cbn [fst snd] in *. apply H.
  - cbn. apply Rect_ordered; lia.
  - exact Hfit.
Qed.

(** X15.  With a palette path, the palette image written has the size
    [getPaletteImageDimensions] gives for the number of colours, holds
    the [n]-th colour of the palette returned in column [n mod width] of
    row [n / width], and is zero in every other cell: all entries fit
    and none overwrites another. *)
Theorem palette_image_layout (w : World) (img : image.Image)
    (outImagePath outPaletteTexture : string) palette evs :
  range_visits_all w -> outPaletteTexture <> EmptyString ->
  GenerateFromImage w img outImagePath outPaletteTexture
    = Some (inr palette, evs) ->
  exists p,
    writtenPalette evs = Some p /\
    let '(width, height) :=
      getPaletteImageDimensions (Z.of_nat (length palette)) in
    image.RRect p = image.mkRect 0 0 width height /\
    (forall n c, palette !! n = Some c ->
       image.In (Z.of_nat n mod width) (Z.of_nat n / width) (image.RRect p)
         = true /\
       image.RGBAAt p (Z.of_nat n mod width) (Z.of_nat n / width) = c) /\
    (forall x y,
       (forall n, (n < length palette)%nat ->
                  (x, y) <> (Z.of_nat n mod width, Z.of_nat n / width)) ->
       image.RGBAAt p x y = color.mkRGBA 0 0 0 0).
Proof.
  intros Hrange Hpath Hrun.
  destruct (GenerateFromImage_run _ _ _ _ _ _ Hrange Hrun)
    as (h & l & _ & _ & _ & Hlen & _ & Hpal).
  destruct (Hpal Hpath) as [-> Hwritten].
  eexists. split; [exact Hwritten|].
  unfold paletteOf. cbn [fst snd]. rewrite length_fmap.
  destruct l as [|c0 l0].
  { (* no colour at all: a palette image without cells *)
    change (getPaletteImageDimensions (Z.of_nat (length []))) with (0, 1).
    split; [reflexivity|]. split; [|reflexivity].
    intros n c Hn. destruct n; discriminate. }
  set (l := c0 :: l0) in *.
  assert (HN : 1 <= Z.of_nat (length l) <= 65536) by (cbn in *; lia).
  pose proof (getPaletteImageDimensions_area _ HN) as Harea.
  destruct (getPaletteImageDimensions (Z.of_nat (length l)))
    as [width height].
  destruct Harea as (Hw & Hh & Hfit & _).
  destruct (layPalette_cells h l width height ltac:(lia) ltac:(lia) Hfit)
    as (Hrect & Hcells & Hrest).
  split; [exact Hrect|]. split.
  - intros n c Hn. apply list_lookup_fmap_Some in Hn as (a & -> & Ha).
    pose proof (lookup_lt_Some _ _ _ Ha) as Hlt.
    pose proof (Z.div_mod (Z.of_nat n) width ltac:(lia)).
    pose proof (Z.mod_pos_bound (Z.of_nat n) width ltac:(lia)).
    split.
    + rewrite Hrect. unfold image.In. cbn.
      rewrite !andb_true_iff, !Z.leb_le, !Z.ltb_lt. nia.
    + unfold image.RGBAAt. fold (cellOf width n).
      now rewrite (Hcells n a Ha).
  - intros x y Hxy. unfold image.RGBAAt. rewrite Hrest; [reflexivity|].
    intros k Hk. apply Hxy. exact Hk.
Qed.

Lemma palette_image_layout_witness :
  exists p,
    writtenPalette (eventsOf (GenerateFromImage quietWorld fourPixels
                                "sprite.png" "palette.png")) = Some p /\
    let '(width, height) :=
      getPaletteImageDimensions
        (Z.of_nat (length [color.mkRGBA 128 0 0 255; color.mkRGBA 255 0 0 255;
                           color.mkRGBA 0 255 0 255])) in
    image.RRect p = image.mkRect 0 0 width height /\
    (forall n c, [color.mkRGBA 128 0 0 255; color.mkRGBA 255 0 0 255;
                  color.mkRGBA 0 255 0 255] !! n = Some c ->
       image.In (Z.of_nat n mod width) (Z.of_nat n / width) (image.RRect p)
         = true /\
       image.RGBAAt p (Z.of_nat n mod width) (Z.of_nat n / width) = c) /\
    (forall x y,
       (forall n, (n < length [color.mkRGBA 128 0 0 255;
                               color.mkRGBA 255 0 0 255;
                               color.mkRGBA 0 255 0 255])%nat ->
                  (x, y) <> (Z.of_nat n mod width, Z.of_nat n / width)) ->
       image.RGBAAt p x y = color.mkRGBA 0 0 0 0).
Proof.
  apply (palette_image_layout quietWorld fourPixels
           "sprite.png" "palette.png" _ _ quietWorld_range).
  - discriminate.
  - exact fourPixels_run.
Defined.

(** ** What reaches the file system *)

(** The file operations of a run that goes through: the index image,
    then, if a palette path is given, the palette image. *)
Definition completeRun (outImagePath outPaletteTexture : string)
    (s : image.NRGBA) (p : image.RGBA) : list event :=
  [EvCreate outImagePath; EvSprite outImagePath s] ++
  if (0 <? String.length outPaletteTexture)%nat
  then [EvCreate outPaletteTexture; EvPalette outPaletteTexture p]
  else [].

(** X16.  Whatever the outcome, the file operations done are an initial part
    of those of a complete run, so no other path is touched and the
    palette file is not created before the index image is encoded; and a
    palette is returned exactly when the run is complete. *)
Theorem file_effects_in_order (w : World) (img : image.Image)
    (outImagePath outPaletteTexture : string) res evs :
  GenerateFromImage w img outImagePath outPaletteTexture = Some (res, evs) ->
  exists s p,
    evs `prefix_of` completeRun outImagePath outPaletteTexture s p /\
    ((exists palette, res = inr palette) <->
     evs = completeRun outImagePath outPaletteTexture s p).
Proof.
  unfold GenerateFromImage, completeRun.
  destruct (65536 <? _).
  { intros Hrun. inversion Hrun; subst.
    exists (image.NewNRGBA (image.mkRect 0 0 0 0)),
           (image.NewRGBA (image.mkRect 0 0 0 0)).
    split; [apply prefix_nil|]. split; [intros [? ?]|]; discriminate. }
  destruct (sortedCatalogue w (scanImage w img)) as [[h l]|];
    [|discriminate].
  cbn [mbind option_bind].
  destruct (openFails w outImagePath).
  { intros Hrun. inversion Hrun; subst.
    exists (image.NewNRGBA (image.mkRect 0 0 0 0)),
           (image.NewRGBA (image.mkRect 0 0 0 0)).
    split; [apply prefix_nil|]. split; [intros [? ?]|]; discriminate. }
  destruct (encodeFails w outImagePath).
  { intros Hrun. inversion Hrun; subst.
    exists (image.NewNRGBA (image.mkRect 0 0 0 0)),
           (image.NewRGBA (image.mkRect 0 0 0 0)).
    split; [eexists; reflexivity|]. split; [intros [? ?]|]; discriminate. }
  destruct (0 <? String.length outPaletteTexture)%nat.
  2:{ intros Hrun. inversion Hrun; subst.
      eexists _, (image.NewRGBA (image.mkRect 0 0 0 0)). cbn [app].
      split; [reflexivity|]. split; [reflexivity|eauto]. }
  destruct (getPaletteImageDimensions _) as [width height].
  destruct (layPalette h l width height) as [outPalette palette].
  destruct (openFails w outPaletteTexture).
  { intros Hrun. inversion Hrun; subst. eexists _, outPalette.
    split; [eexists; reflexivity|]. split; [intros [? ?]|]; discriminate. }
  destruct (encodeFails w outPaletteTexture).
  { intros Hrun. inversion Hrun; subst. eexists _, outPalette.
    split; [eexists; reflexivity|]. split; [intros [? ?]|]; discriminate. }
  intros Hrun. inversion Hrun; subst. eexists _, _. cbn [app].
  split; [reflexivity|]. split; [reflexivity|eauto].
Qed.

Lemma file_effects_in_order_witness :
  exists s p,
    eventsOf (GenerateFromImage quietWorld fourPixels
                "sprite.png" "palette.png")
      `prefix_of` completeRun "sprite.png" "palette.png" s p /\
    ((exists palette,
        @inr error _ [color.mkRGBA 128 0 0 255; color.mkRGBA 255 0 0 255;
                      color.mkRGBA 0 255 0 255] = inr palette) <->
     eventsOf (GenerateFromImage quietWorld fourPixels
                 "sprite.png" "palette.png")
       = completeRun "sprite.png" "palette.png" s p).
Proof.
  apply (file_effects_in_order quietWorld fourPixels
           "sprite.png" "palette.png").
  exact fourPixels_run.
Defined.

(** A world in which one path cannot be opened. *)
Definition lockedWorld (locked : string) : World :=
  mkWorld colorful.Hsv (fun l => l) (fun path => String.eqb path locked)
          (fun _ => false).

(** X17.  Nothing is undone on failure: when the index image went through and
    the palette file cannot be opened or encoded, the function returns
    an error and no palette, and the index image stays written. *)
Theorem sprite_stays_when_palette_fails (w : World) (img : image.Image)
    (outImagePath outPaletteTexture : string) :
  range_visits_all w ->
  Z.of_nat (length (distinctColours img)) <= 65536 ->
  openFails w outImagePath = false -> encodeFails w outImagePath = false ->
  outPaletteTexture <> EmptyString ->
  openFails w outPaletteTexture = true \/
    encodeFails w outPaletteTexture = true ->
  exists e s rest,
    GenerateFromImage w img outImagePath outPaletteTexture =
      Some (inl e, EvCreate outImagePath :: EvSprite outImagePath s :: rest) /\
    (e = ErrOpen outPaletteTexture \/ e = ErrEncode outPaletteTexture) /\
    (forall p, EvPalette outPaletteTexture p ∉ rest).
Proof.
  intros Hrange Hsize Hopen Henc Hpath Hfail.
  rewrite <- scanImage_size with (w := w) in Hsize.
  destruct (sortedCatalogue_spec w _ _ (scanImage_ok w img) Hrange Hsize)
    as (h & l & Hsorted & _).
  unfold GenerateFromImage.
  destruct (Z.ltb_spec 65536 (Z.of_nat (size (colourMap (scanImage w img)))))
    as [?|_]; [lia|].
  rewrite Hsorted. cbn [mbind option_bind]. rewrite Hopen, Henc.
  destruct outPaletteTexture as [|c s]; [congruence|].
  cbn [String.length Nat.ltb Nat.leb].
  destruct (getPaletteImageDimensions _) as [width height].
  destruct (layPalette h l width height) as [outPalette palette].
  destruct (openFails w (String c s)) eqn:Hopen2.
  - eexists _, _, _. split; [reflexivity|]. split; [now left|].
    intros p Hp. now apply elem_of_nil in Hp.
  - destruct Hfail as [?|Henc2]; [discriminate|]. rewrite Henc2.
    eexists _, _, _. split; [reflexivity|]. split; [now right|].
    intros p Hp. apply list_elem_of_singleton in Hp. discriminate.
Qed.

Lemma sprite_stays_when_palette_fails_witness :
  exists e s rest,
    GenerateFromImage (lockedWorld "palette.png") fourPixels
                      "sprite.png" "palette.png" =
      Some (inl e, EvCreate "sprite.png" :: EvSprite "sprite.png" s :: rest) /\
    (e = ErrOpen "palette.png" \/ e = ErrEncode "palette.png") /\
    (forall p, EvPalette "palette.png" p ∉ rest).
Proof.
  apply (sprite_stays_when_palette_fails (lockedWorld "palette.png")
           fourPixels "sprite.png" "palette.png").
  - intros l. reflexivity.
  - vm_compute. discriminate.
  - reflexivity.
  - reflexivity.
  - discriminate.
  - left. reflexivity.
Defined.

(** ** Generate and the files it touches *)

Definition eventPath (e : event) : string :=
  match e with
  | EvCreate path | EvSprite path _ | EvPalette path _ => path
  end.

(** [GenerateFromImage] touches its two output paths only. *)
Lemma GenerateFromImage_paths (w : World) (img : image.Image)
    (outImagePath outPaletteTexture : string) res evs :
  GenerateFromImage w img outImagePath outPaletteTexture = Some (res, evs) ->
  Forall (fun e => eventPath e = outImagePath \/
                   eventPath e = outPaletteTexture) evs.
Proof.
  unfold GenerateFromImage. intros Hrun.
  destruct (65536 <? _);
    [|destruct (sortedCatalogue w (scanImage w img)) as [[h l]|];
      [cbn [mbind option_bind] in Hrun|discriminate];
      destruct (openFails w outImagePath);
      [|destruct (encodeFails w outImagePath);
        [|destruct (0 <? String.length outPaletteTexture)%nat;
          [destruct (getPaletteImageDimensions _) as [width height];
           destruct (layPalette h l width height) as [outPalette palette];
           destruct (openFails w outPaletteTexture);
           [|destruct (encodeFails w outPaletteTexture)]|]]]];
    inversion Hrun; subst; cbn [app];
    repeat (apply Forall_cons_2; [cbn; tauto|]); apply Forall_nil_2.
Qed.

(** X18.  [Generate] creates or writes no file but the two output paths, does
    nothing at all when the input cannot be opened, and otherwise opens
    the input first and closes it last, on every return; it returns a
    palette only when the input decodes to an image for which
    [GenerateFromImage] returns that palette. *)
Theorem Generate_effects (w : World) (fs : Input)
    (imagePath outImagePath outPaletteTexture : string) res evs :
  Generate w fs imagePath outImagePath outPaletteTexture = Some (res, evs) ->
  (forall e, EvOut e ∈ evs ->
     eventPath e = outImagePath \/ eventPath e = outPaletteTexture) /\
  (if openInputFails fs imagePath
   then res = inl (ErrOf (ErrOpen imagePath)) /\ evs = []
   else exists outs,
     evs = [EvOpen imagePath] ++ (EvOut <$> outs) ++ [EvClose imagePath] /\
     (decode fs imagePath = None -> res = inl (ErrDecode imagePath) /\ outs = []) /\
     (forall img, decode fs imagePath = Some img ->
        exists r, GenerateFromImage w img outImagePath outPaletteTexture
                    = Some (r, outs) /\
                  (forall palette, res = inr palette <-> r = inr palette))).
Proof.
  unfold Generate. destruct (openInputFails fs imagePath).
  { intros Hrun. inversion Hrun; subst. split; [|split; reflexivity].
    intros e He. now apply elem_of_nil in He. }
  destruct (decode fs imagePath) as [img|].
  2:{ intros Hrun. inversion Hrun; subst. split.
      - intros e He. repeat (apply elem_of_cons in He as [He|He];
          [discriminate|]). now apply elem_of_nil in He.
      - exists []. split; [reflexivity|]. split; [now split|]. discriminate. }
  destruct (GenerateFromImage w img outImagePath outPaletteTexture)
    as [[r outs]|] eqn:Hinner; [|discriminate].
  cbn [mbind option_bind fst snd]. intros Hrun. inversion Hrun; subst.
  split.
  - intros e He.
    pose proof (GenerateFromImage_paths _ _ _ _ _ _ Hinner) as Hpaths.
    rewrite list.Forall_forall in Hpaths. apply Hpaths.
    apply elem_of_cons in He as [He|He]; [discriminate|].
    apply elem_of_app in He as [He|He].
    + apply list_elem_of_fmap in He as (e' & Heq & He').
      now injection Heq as ->.
    + apply list_elem_of_singleton in He. discriminate.
  - exists outs. split; [reflexivity|]. split; [discriminate|].
    intros img' Himg. injection Himg as <-. exists r.
    split; [exact Hinner|]. intros palette.
    destruct r; split; intros Heq; try discriminate;
      injection Heq as ->; reflexivity.
Qed.

(** A file system holding one image. *)
Definition oneFile (path : string) (img : image.Image) : Input :=
  mkInput (fun p => negb (String.eqb p path))
          (fun p => if String.eqb p path then Some img else None).

Lemma Generate_effects_witness :
  (forall e,
     EvOut e ∈ default [] (snd <$> Generate quietWorld
                             (oneFile "in.png" fourPixels)
                             "in.png" "sprite.png" "palette.png") ->
     eventPath e = "sprite.png"%string \/ eventPath e = "palette.png"%string) /\
  exists outs,
    default [] (snd <$> Generate quietWorld (oneFile "in.png" fourPixels)
                          "in.png" "sprite.png" "palette.png") =
      [EvOpen "in.png"] ++ (EvOut <$> outs) ++ [EvClose "in.png"] /\
    (Some fourPixels = None ->
     @inr generateError _ [color.mkRGBA 128 0 0 255; color.mkRGBA 255 0 0 255;
                           color.mkRGBA 0 255 0 255] =
       inl (ErrDecode "in.png") /\ outs = []) /\
    (forall img, Some fourPixels = Some img ->
       exists r, GenerateFromImage quietWorld img "sprite.png" "palette.png"
                   = Some (r, outs) /\
                 (forall palette,
                    @inr generateError _
                      [color.mkRGBA 128 0 0 255; color.mkRGBA 255 0 0 255;
                       color.mkRGBA 0 255 0 255] = inr palette <->
                    r = inr palette)).
Proof.
  apply (Generate_effects quietWorld (oneFile "in.png" fourPixels)
           "in.png" "sprite.png" "palette.png").
  vm_compute. reflexivity.
Defined.

(** ** Sorting any list *)

Lemma Swap_same_colours (h h' : Heap) (l l' : UniqueColourList) (i j : nat) :
  Swap h l i j = Some (h', l') -> same_colours h h'.
Proof.
  unfold Swap. destruct (l !! i) as [a|]; [|discriminate].
  destruct (l !! j) as [b|]; [|discriminate].
  cbn [mbind option_bind]. intros Heq. injection Heq as <- <-.
  eapply same_colours_trans; apply same_colours_set_index.
Qed.

(** Exchanging two neighbours rearranges the list. *)
Lemma Swap_adjacent_Permutation (h h' : Heap) (l l' : UniqueColourList)
    (j : nat) :
  Swap h l (S j) j = Some (h', l') -> l' ≡ₚ l.
Proof.
  unfold Swap. destruct (l !! S j) as [a|] eqn:Ha; [|discriminate].
  destruct (l !! j) as [b|] eqn:Hb; [|discriminate].
  cbn [mbind option_bind]. intros Heq. injection Heq as <- <-.
  assert (Hl : l = take j l ++ b :: a :: drop (S (S j)) l).
  { rewrite <- (take_drop_middle l (S j) a Ha) at 1.
    rewrite (take_S_r l j b Hb), <- app_assoc. reflexivity. }
  pose proof (lookup_lt_Some _ _ _ Hb) as Hlt.
  rewrite Hl at 1.
  rewrite (swap_adjacent j (take j l) _ a b)
    by (rewrite length_take; lia).
  rewrite Hl at 3. apply Permutation_app_head, perm_swap.
Qed.

Lemma insertLoop_total (j : nat) :
  forall (h : Heap) (l : UniqueColourList), (j < length l)%nat ->
  exists h' l',
    sort.insertLoop h l j = Some (h', l') /\ l' ≡ₚ l /\ same_colours h h'.
Proof.
  induction j as [|j IH]; intros h l Hj.
  - exists h, l. split; [reflexivity|]. split; [reflexivity|].
    apply same_colours_refl.
  - cbn [sort.insertLoop].
    destruct (lookup_lt_is_Some_2 l (S j) Hj) as [a Ha].
    destruct (lookup_lt_is_Some_2 l j ltac:(lia)) as [b Hb].
    unfold Less at 1. rewrite Ha, Hb. cbn [mbind option_bind].
    destruct (lessColour (h !!! a) (h !!! b)).
    + destruct (Swap h l (S j) j) as [[h1 l1]|] eqn:Hswap.
      2:{ unfold Swap in Hswap. now rewrite Ha, Hb in Hswap. }
      cbn [mbind option_bind fst snd].
      pose proof (Swap_adjacent_Permutation _ _ _ _ _ Hswap) as Hperm.
      pose proof (Swap_same_colours _ _ _ _ _ _ Hswap) as Hsame.
      destruct (IH h1 l1) as (h' & l' & Hrun & Hperm' & Hsame').
      { rewrite Hperm. lia. }
      exists h', l'. split; [exact Hrun|]. split.
      * now rewrite Hperm'.
      * eapply same_colours_trans; eassumption.
    + exists h, l. split; [reflexivity|]. split; [reflexivity|].
      apply same_colours_refl.
Qed.

Lemma sortSteps_total (steps : list nat) :
  forall (h0 : Heap) (l0 : UniqueColourList),
    Forall (fun i => (i < length l0)%nat) steps ->
    exists h' l',
      foldl sortStep (Some (h0, l0)) steps = Some (h', l') /\
      l' ≡ₚ l0 /\ same_colours h0 h'.
Proof.
  induction steps as [|i steps IH]; intros h0 l0 Hsteps.
  - exists h0, l0. split; [reflexivity|]. split; [reflexivity|].
    apply same_colours_refl.
  - apply list.Forall_cons in Hsteps as [Hi Hsteps].
    destruct (insertLoop_total i h0 l0 Hi) as (h1 & l1 & Hrun & Hperm & Hsame).
    cbn [foldl]. unfold sortStep at 2. cbn [mbind option_bind fst snd].
    rewrite Hrun.
    destruct (IH h1 l1) as (h' & l' & Hrest & Hperm' & Hsame').
    { rewrite list.Forall_forall in Hsteps. apply list.Forall_forall.
      intros k Hk. rewrite Hperm. now apply Hsteps. }
    exists h', l'. split; [exact Hrest|]. split.
    + now rewrite Hperm'.
    + eapply same_colours_trans; eassumption.
Qed.

Lemma Sort_total (h : Heap) (l : UniqueColourList) :
  exists h' l',
    sort.Sort h l = Some (h', l') /\ l' ≡ₚ l /\ same_colours h h'.
Proof.
  apply (sortSteps_total (seq (0 + 1) (Len l - (0 + 1))) h l).
  apply list.Forall_forall. intros i Hi. apply elem_of_seq in Hi.
  unfold Len in Hi. lia.
Qed.


(** X20.  Every outcome of [GenerateFromImage] has its cause.  An error
    returned is the capacity error of an image with more than 65536
    colours, or reports a file operation that failed on one of the two
    output paths; and a palette is returned only if the image has at
    most 65536 colours and no operation on the paths used failed. *)
Theorem outcomes_have_a_cause (w : World) (img : image.Image)
    (outImagePath outPaletteTexture : string) res evs :
  GenerateFromImage w img outImagePath outPaletteTexture = Some (res, evs) ->
  match res with
  | inl e =>
      (e = ErrTooManyColours /\
       65536 < Z.of_nat (length (distinctColours img))) \/
      (e = ErrOpen outImagePath /\ openFails w outImagePath = true) \/
      (e = ErrEncode outImagePath /\ encodeFails w outImagePath = true) \/
      (e = ErrOpen outPaletteTexture /\ outPaletteTexture <> EmptyString /\
       openFails w outPaletteTexture = true) \/
      (e = ErrEncode outPaletteTexture /\ outPaletteTexture <> EmptyString /\
       encodeFails w outPaletteTexture = true)
  | inr _ =>
      Z.of_nat (length (distinctColours img)) <= 65536 /\
      openFails w outImagePath = false /\
      encodeFails w outImagePath = false /\
      (outPaletteTexture <> EmptyString ->
       openFails w outPaletteTexture = false /\
       encodeFails w outPaletteTexture = false)
  end.
Proof.
  unfold GenerateFromImage.
  destruct (Z.ltb_spec 65536 (Z.of_nat (size (colourMap (scanImage w img)))))
    as [Hgt|Hle]; rewrite (scanImage_size w img) in *.
  { intros Hrun. inversion Hrun; subst. left. now split. }
  destruct (sortedCatalogue w (scanImage w img)) as [[h l]|];
    [|discriminate].
  cbn [mbind option_bind].
  destruct (openFails w outImagePath) eqn:Hopen.
  { intros Hrun. inversion Hrun; subst. tauto. }
  destruct (encodeFails w outImagePath) eqn:Henc.
  { intros Hrun. inversion Hrun; subst. tauto. }
  destruct outPaletteTexture as [|c s].
  { cbn [String.length Nat.ltb Nat.leb]. intros Hrun. inversion Hrun; subst.
    repeat split; try assumption; congruence. }
  cbn [String.length Nat.ltb Nat.leb].
  destruct (getPaletteImageDimensions _) as [width height].
  destruct (layPalette h l width height) as [outPalette palette].
  destruct (openFails w (String c s)) eqn:Hopen2.
  { intros Hrun. inversion Hrun; subst. do 3 right. left.
    repeat split; first [reflexivity|discriminate|assumption]. }
  destruct (encodeFails w (String c s)) eqn:Henc2.
  { intros Hrun. inversion Hrun; subst. do 4 right.
    repeat split; first [reflexivity|discriminate|assumption]. }
  intros Hrun. inversion Hrun; subst. repeat split; assumption.
Qed.

Lemma outcomes_have_a_cause_witness :
  (ErrOpen "palette.png" = ErrTooManyColours /\
   65536 < Z.of_nat (length (distinctColours fourPixels))) \/
  (ErrOpen "palette.png" = ErrOpen "sprite.png" /\
   openFails (lockedWorld "palette.png") "sprite.png" = true) \/
  (ErrOpen "palette.png" = ErrEncode "sprite.png" /\
   encodeFails (lockedWorld "palette.png") "sprite.png" = true) \/
  (ErrOpen "palette.png" = ErrOpen "palette.png" /\
   "palette.png"%string <> EmptyString /\
   openFails (lockedWorld "palette.png") "palette.png" = true) \/
  (ErrOpen "palette.png" = ErrEncode "palette.png" /\
   "palette.png"%string <> EmptyString /\
   encodeFails (lockedWorld "palette.png") "palette.png" = true).
Proof.
  apply (outcomes_have_a_cause (lockedWorld "palette.png") fourPixels
           "sprite.png" "palette.png" (inl (ErrOpen "palette.png"))
           (eventsOf (GenerateFromImage (lockedWorld "palette.png") fourPixels
                        "sprite.png" "palette.png"))).
  vm_compute. reflexivity.
Defined.

(** ** nextPowerOfTwo below one *)

(** X21.  On every [v] from [-2^31 + 1] to [0] the bit smearing of
    [nextPowerOfTwo] saturates and the function returns 0. *)
Theorem nextPowerOfTwo_nothing_below_one (v : Z) :
  - 2 ^ 31 < v <= 0 -> nextPowerOfTwo v = 0.
Proof.
  intros Hv. rewrite nextPowerOfTwo_smear.
  rewrite (wrap_small (v - 1)) by lia.
  assert (Hones : smear (v - 1) = -1).
  { apply Z.bits_inj'. intros i Hi. rewrite Z.bits_m1 by exact Hi.
    apply (smear_covers (v - 1) i Hi).
    exists 31. split; [lia|].
    apply Z.bits_above_log2_neg; [lia|].
    replace (Z.pred (- (v - 1))) with (- v) by lia.
    destruct (Z.eq_dec v 0) as [->|Hne];
      [change (Z.log2 (- 0)) with 0; lia|].
    apply Z.log2_lt_pow2; [lia|].
    assert (2 ^ 31 <= 2 ^ (i + 31)) by (apply Z.pow_le_mono_r; lia). lia. }
  rewrite Hones. reflexivity.
Qed.

Lemma nextPowerOfTwo_nothing_below_one_witness : nextPowerOfTwo (-5) = 0.
Proof. apply (nextPowerOfTwo_nothing_below_one (-5)). lia. Defined.

(** ** An image without pixels *)

Lemma coords_empty (b : image.Rectangle) :
  image.MaxX b <= image.MinX b \/ image.MaxY b <= image.MinY b ->
  coords b = [].
Proof.
  intros Hb. apply elem_of_nil_inv. intros [x y] Hin.
  apply elem_of_coords in Hin. unfold image.In in Hin.
  rewrite !andb_true_iff, !Z.leb_le, !Z.ltb_lt in Hin. lia.
Qed.

(** A world whose encoder refuses what it is given at one path. *)
Definition refusingEncoder (path : string) : World :=
  mkWorld colorful.Hsv (fun l => l) (fun _ => false) (String.eqb path).

(** C10, as the code has it.  [nextPowerOfTwo 0] is 0 and
    [getPaletteImageDimensions 0] is width 0 and height 1; but an image
    without pixels never gets as far as that layout.  Its index image
    has an empty side, which [png.Encode] refuses, so
    [GenerateFromImage] returns an error from the index image file,
    having at most created that file: no palette image is laid out or
    written. *)
Theorem no_palette_layout_without_pixels :
  nextPowerOfTwo 0 = 0 /\
  getPaletteImageDimensions 0 = (0, 1) /\
  forall (w : World) (img : image.Image)
         (outImagePath outPaletteTexture : string),
    image.MinX (image.Bounds img) <= image.MaxX (image.Bounds img) ->
    image.MinY (image.Bounds img) <= image.MaxY (image.Bounds img) ->
    image.MinX (image.Bounds img) = image.MaxX (image.Bounds img) \/
      image.MinY (image.Bounds img) = image.MaxY (image.Bounds img) ->
    encoderChecksSize w outImagePath
      (image.Rect (image.MinX (image.Bounds img)) (image.MinY (image.Bounds img))
                  (image.MaxX (image.Bounds img)) (image.MaxY (image.Bounds img))) ->
    png.invalidSize
      (image.Rect (image.MinX (image.Bounds img)) (image.MinY (image.Bounds img))
                  (image.MaxX (image.Bounds img)) (image.MaxY (image.Bounds img)))
      = true /\
    exists e evs,
      GenerateFromImage w img outImagePath outPaletteTexture
        = Some (inl e, evs) /\
      (e = ErrOpen outImagePath \/ e = ErrEncode outImagePath) /\
      evs `prefix_of` [EvCreate outImagePath] /\
      writtenPalette evs = None.
Proof.
  split; [reflexivity|]. split; [reflexivity|].
  intros w img outImagePath outPaletteTexture Hx Hy Hempty Hpng.
  assert (Hinvalid : png.invalidSize
            (image.Rect (image.MinX (image.Bounds img))
                        (image.MinY (image.Bounds img))
                        (image.MaxX (image.Bounds img))
                        (image.MaxY (image.Bounds img))) = true).
  { rewrite Rect_ordered by assumption. unfold png.invalidSize.
    cbn [image.MinX image.MinY image.MaxX image.MaxY].
    destruct Hempty as [-> | ->]; rewrite Z.sub_diag;
      change (GoInt.wrap 0 <=? 0) with true;
      now rewrite ?orb_true_r. }
  split; [exact Hinvalid|].
  unfold GenerateFromImage.
  assert (Hscan : scanImage w img = emptyCatalogue).
  { unfold scanImage. rewrite coords_empty by lia. reflexivity. }
  rewrite Hscan. cbn [colourMap emptyCatalogue].
  change (65536 <? Z.of_nat (size (∅ : gmap color.RGBA nat))) with false.
  cbv iota.
  assert (Hsort : is_Some (sortedCatalogue w emptyCatalogue)).
  { unfold sortedCatalogue.
    destruct (numberColours _ _) as [[h l] k].
    destruct (Sort_total h l) as (h' & l' & -> & _). eauto. }
  destruct Hsort as [[h l] ->]. cbn [mbind option_bind].
  destruct (openFails w outImagePath).
  { eexists _, _. split; [reflexivity|]. split; [now left|].
    split; [apply prefix_nil|reflexivity]. }
  rewrite (Hpng Hinvalid).
  eexists _, _. split; [reflexivity|]. split; [now right|].
  split; reflexivity.
Qed.

Lemma no_palette_layout_without_pixels_witness :
  png.invalidSize (image.Rect 0 0 0 0) = true /\
  exists (e : error) (evs : list event),
    GenerateFromImage (refusingEncoder "sprite.png") noPixels
                      "sprite.png" "palette.png" = Some (inl e, evs) /\
    (e = ErrOpen "sprite.png" \/ e = ErrEncode "sprite.png") /\
    evs `prefix_of` [EvCreate "sprite.png"] /\
    writtenPalette evs = None.
Proof.
  destruct no_palette_layout_without_pixels as (_ & _ & Hrun).
  apply (Hrun (refusingEncoder "sprite.png") noPixels
              "sprite.png"%string "palette.png"%string).
  - cbn. lia.
  - cbn. lia.
  - left. reflexivity.
  - intros _. reflexivity.
Defined.

(** C10 as stated fails: the run on an image without pixels ends in the
    encoder's error on the index image, not in a palette image zero
    pixels wide. *)
Lemma zero_pixels_give_an_encoder_error :
  png.invalidSize (image.Rect 0 0 0 0) = true /\
  GenerateFromImage (refusingEncoder "sprite.png") noPixels
                    "sprite.png" "palette.png" =
    Some (inl (ErrEncode "sprite.png"), [EvCreate "sprite.png"]) /\
  (GenerateFromImage (refusingEncoder "sprite.png") noPixels
                     "sprite.png" "palette.png"
     ≫= fun out => writtenPalette out.2) = None.
Proof. vm_compute. repeat split; reflexivity. Qed.
